(** * fix-zindex.py: the shape z-index rewriter

    A shallow embedding of [src/fix-zindex.py] and the proofs of its
    transformation contract.

    The script reads a text, cuts it at every occurrence of the delimiter
    (four spaces and an opening brace), rewrites the placeholder
    [zIndex: 0] inside every piece after the first according to the piece's
    [type:] marker, and joins the pieces again with the same delimiter.

    Text is modelled as [list ascii]: one [ascii] per character, for
    documents whose characters lie in the 8-bit range.  In that range the
    decimal digits recognised by the regular-expression class [\d] are
    exactly ['0'] .. ['9'].  The model is the transformation of the text
    held in [content] (lines 9 to 50 of the script); decoding and encoding
    of the file belong to the platform.

    The script can stop with an exception.  [fix_shape] and [transform]
    give the text the script computes when it runs to the end; [body] and
    [run] follow the same lines with the exceptions written out, and say
    when it does. *)

From Stdlib Require Import Ascii String List Bool Arith NArith Lia.
Import ListNotations.

Local Open Scope list_scope.

(** ** Text *)

Definition str := list ascii.

(** A literal of the script, as text. *)
Definition txt (s : string) : str := list_ascii_of_string s.

(** The double-quote character. *)
Definition dquote : ascii := ascii_of_nat 34.

(** ** Exceptions *)

(** The exceptions lines 9 to 50 can raise. *)
Inductive exn := IndexError | ValueError.

(** A computation that returns a value or raises. *)
Inductive result (A : Type) :=
  | Ok (a : A)
  | Raise (e : exn).

Arguments Ok {A} a.
Arguments Raise {A} e.

(** ** The string primitives the script calls *)

Module Py.

(** [s.startswith(pat)] *)
Fixpoint starts_with (pat s : str) : bool :=
  match pat, s with
  | [], _ => true
  | _ :: _, [] => false
  | a :: pat', b :: s' => Ascii.eqb a b && starts_with pat' s'
  end.

(** [pat in s] *)
Fixpoint contains (pat s : str) : bool :=
  starts_with pat s ||
  match s with
  | [] => false
  | _ :: s' => contains pat s'
  end.

(** The leftmost occurrence of [pat] in [s]: the text before it and the
    text after it ([s.partition(pat)] when [pat] occurs). *)
Fixpoint partition (pat s : str) : option (str * str) :=
  if starts_with pat s then Some ([], skipn (length pat) s)
  else
    match s with
    | [] => None
    | c :: s' =>
        match partition pat s' with
        | Some (before, after) => Some (c :: before, after)
        | None => None
        end
    end.

(** [s.split(sep)] for a non-empty [sep]: cut at the leftmost occurrence,
    go on after it.  The text after an occurrence is shorter than [s], so
    [length s] rounds are enough. *)
Fixpoint split_rounds (n : nat) (sep s : str) : list str :=
  match n with
  | O => [s]
  | S n' =>
      match partition sep s with
      | None => [s]
      | Some (before, after) => before :: split_rounds n' sep after
      end
  end.

Definition split (sep s : str) : list str :=
  split_rounds (length s) sep s.

(** [sep.join(parts)] *)
Fixpoint join (sep : str) (parts : list str) : str :=
  match parts with
  | [] => []
  | p :: rest =>
      match rest with
      | [] => p
      | _ :: _ => p ++ sep ++ join sep rest
      end
  end.

(** [re.sub(pat, repl, s)] for a pattern and a replacement without
    metacharacters: every match found scanning from the left, each scan
    resuming right after the previous match, is replaced. *)
Fixpoint sub_rounds (n : nat) (pat repl s : str) : str :=
  match n with
  | O => s
  | S n' =>
      match partition pat s with
      | None => s
      | Some (before, after) => before ++ repl ++ sub_rounds n' pat repl after
      end
  end.

Definition re_sub (pat repl s : str) : str :=
  sub_rounds (length s) pat repl s.

(** The class [\d] on 8-bit characters. *)
Definition is_digit (c : ascii) : bool :=
  let n := nat_of_ascii c in (48 <=? n) && (n <=? 57).

(** The longest run of digits at the head of [s] (the greedy [\d*]). *)
Fixpoint digit_run (s : str) : str :=
  match s with
  | [] => []
  | c :: s' => if is_digit c then c :: digit_run s' else []
  end.

(** [s] without the prefix [pat], when it has it. *)
Fixpoint strip_prefix (pat s : str) : option str :=
  match pat, s with
  | [], _ => Some s
  | _ :: _, [] => None
  | a :: pat', b :: s' => if Ascii.eqb a b then strip_prefix pat' s' else None
  end.

(** [re.search(key + r'(\d+)', s)], giving [group(1)]: the leftmost place
    where [key] is followed by a digit, and the digits found there. *)
Fixpoint search_digits (key s : str) : option str :=
  let here :=
    match strip_prefix key s with
    | Some rest =>
        match digit_run rest with
        | [] => None
        | d :: ds => Some (d :: ds)
        end
    | None => None
    end in
  match here with
  | Some ds => Some ds
  | None =>
      match s with
      | [] => None
      | _ :: s' => search_digits key s'
      end
  end.

(** The value of [int(ds)] for a run of digits, when [int] returns one.
    Python integers are unbounded; [int_call] below has the cap on the
    number of digits [int] accepts. *)
Definition digit_value (c : ascii) : N := N.of_nat (nat_of_ascii c - 48).

Definition int (ds : str) : N :=
  fold_left (fun acc c => (10 * acc + digit_value c)%N) ds 0%N.

(** [sys.get_int_max_str_digits()], at its default. *)
Definition max_str_digits : nat := 4300.

(** The call [int(ds)] on a run of digits: [ValueError] when the run has
    more digits than the cap, leading zeros counted. *)
Definition int_call (ds : str) : result N :=
  if length ds <=? max_str_digits then Ok (int ds) else Raise ValueError.

End Py.

Import Py.

(** ** The script *)

(** The delimiter of line 9. *)
Definition delim : str := txt "    {".

(** The placeholder every [re.sub] call looks for. *)
Definition placeholder : str := txt "zIndex: 0".

(** The type markers, in single and in double quotes. *)
Definition marker_sq (kind : string) : str := txt "type: '" ++ txt kind ++ txt "'".
Definition marker_dq (kind : string) : str :=
  txt "type: " ++ [dquote] ++ txt kind ++ [dquote].

Definition has_marker (kind : string) (shape : str) : bool :=
  contains (marker_sq kind) shape || contains (marker_dq kind) shape.

(** The replacement literals. *)
Definition zindex (v : string) : str := txt "zIndex: " ++ txt v.

(** Lines 34 to 45: the size bands of a rectangle. *)
Definition rectangle_zindex (width height : N) : str :=
  if ((10000 <=? width) || (10000 <=? height))%N then zindex "1"
  else if ((8000 <=? width) || (8000 <=? height))%N then zindex "1"
  else if ((5000 <=? width) || (5000 <=? height))%N then zindex "2"
  else zindex "3".

(** Lines 13 to 45: the body of the loop, from the fragment bound to
    [shape] on entry to the one bound to it at [append], when the body
    gets there ([body] below says when it does). *)
Definition fix_shape (shape : str) : str :=
  if has_marker "text" shape then
    re_sub placeholder (zindex "10") shape
  else if has_marker "circle" shape then
    re_sub placeholder (zindex "5") shape
  else if has_marker "rectangle" shape then
    let width_match := search_digits (txt "width: ") shape in
    let height_match := search_digits (txt "height: ") shape in
    match width_match, height_match with
    | Some w, Some h =>
        let width := int w in
        let height := int h in
        re_sub placeholder (rectangle_zindex width height) shape
    | _, _ => shape
    end
  else shape.

(** Lines 12 to 47: the loop, appending each fixed fragment to
    [fixed_shapes]. *)
Definition loop (fixed_shapes : list str) (rest : list str) : list str :=
  fold_left (fun acc shape => acc ++ [fix_shape shape]) rest fixed_shapes.

(** Lines 9 to 50, when no [int] call raises ([run] below says when one
    does).  [shapes[0]] raises [IndexError] on an empty list: [None]. *)
Definition transform (content : str) : option str :=
  let shapes := split delim content in
  match shapes with
  | [] => None
  | first :: others =>
      let fixed_shapes := loop [first] others in
      Some (join delim fixed_shapes)
  end.

(** Lines 57 to 61: what the script prints after writing. *)
Definition summary : list str :=
  [ txt "Fixed zIndex values!";
    txt "Text shapes: zIndex 10";
    txt "Circle shapes: zIndex 5";
    txt "Rectangle backgrounds (>=8000): zIndex 1";
    txt "Rectangle containers (>=5000): zIndex 2";
    txt "Rectangle content: zIndex 3" ].

(** Lines 13 to 45 with the exceptions: the two [int] calls of lines 30
    and 31 can raise, the width first. *)
Definition body (shape : str) : result str :=
  if has_marker "text" shape then
    Ok (re_sub placeholder (zindex "10") shape)
  else if has_marker "circle" shape then
    Ok (re_sub placeholder (zindex "5") shape)
  else if has_marker "rectangle" shape then
    let width_match := search_digits (txt "width: ") shape in
    let height_match := search_digits (txt "height: ") shape in
    match width_match, height_match with
    | Some w, Some h =>
        match int_call w with
        | Raise e => Raise e
        | Ok width =>
            match int_call h with
            | Raise e => Raise e
            | Ok height =>
                Ok (re_sub placeholder (rectangle_zindex width height) shape)
            end
        end
    | _, _ => Ok shape
    end
  else Ok shape.

(** Lines 12 to 47 with the exceptions: the loop stops at the first
    fragment on which the body raises. *)
Fixpoint run_loop (fixed_shapes : list str) (rest : list str)
  : result (list str) :=
  match rest with
  | [] => Ok fixed_shapes
  | shape :: rest' =>
      match body shape with
      | Raise e => Raise e
      | Ok shape' => run_loop (fixed_shapes ++ [shape']) rest'
      end
  end.

(** Lines 9 to 50 with the exceptions. *)
Definition run (content : str) : result str :=
  let shapes := split delim content in
  match shapes with
  | [] => Raise IndexError
  | first :: others =>
      match run_loop [first] others with
      | Raise e => Raise e
      | Ok fixed_shapes => Ok (join delim fixed_shapes)
      end
  end.

(** Lines 9 to 61, from the text [f.read()] returned: the text handed to
    [f.write] and the lines printed after it, or the exception that stops
    the script before anything is written or printed. *)
Definition script (content : str) : result (str * list str) :=
  match run content with
  | Ok content' => Ok (content', summary)
  | Raise e => Raise e
  end.

(** ** The vocabulary of the specification *)

(** The header fragment: the text before the first delimiter, or the whole
    document when there is none. *)
Definition header (content : str) : str :=
  match partition delim content with
  | Some (before, _) => before
  | None => content
  end.

(** The shape kind of a fragment, by the precedence of the [if]/[elif]
    chain. *)
Inductive kind := Text | Circle | Rectangle | Unclassified.

Definition kind_of (shape : str) : kind :=
  if has_marker "text" shape then Text
  else if has_marker "circle" shape then Circle
  else if has_marker "rectangle" shape then Rectangle
  else Unclassified.

(** A substitution of the first match only ([re.sub] with [count=1]), as
    the specification words it. *)
Definition sub_first (pat repl s : str) : str :=
  match partition pat s with
  | None => s
  | Some (before, after) => before ++ repl ++ after
  end.

(** Number of places of [s] at which [pat] starts. *)
Fixpoint occurrences (pat s : str) : nat :=
  (if starts_with pat s then 1 else 0) +
  match s with
  | [] => 0
  | _ :: s' => occurrences pat s'
  end.

(** What the rule table assigns to a fragment: the replacement literal,
    or nothing when the fragment is left alone. *)
Definition assigned (shape : str) : option str :=
  match kind_of shape with
  | Text => Some (zindex "10")
  | Circle => Some (zindex "5")
  | Rectangle =>
      match search_digits (txt "width: ") shape,
            search_digits (txt "height: ") shape with
      | Some w, Some h => Some (rectangle_zindex (int w) (int h))
      | _, _ => None
      end
  | Unclassified => None
  end.

(** The replacement literals the script can write. *)
Definition replacements : list str :=
  [zindex "10"; zindex "5"; zindex "1"; zindex "2"; zindex "3"].

(** The rule "only the first occurrence is replaced", for one fragment:
    the loop body acts as a first-match substitution of the assigned
    literal. *)
Definition first_only (shape : str) : Prop :=
  forall v, assigned shape = Some v ->
    fix_shape shape = sub_first placeholder v shape.

(** ** Overlap of a pattern with its surroundings *)

(** [a] and [b] agree as far as both go: one is a prefix of the other. *)
Fixpoint compat (a b : str) : bool :=
  match a, b with
  | [], _ => true
  | _, [] => true
  | x :: a', y :: b' => Ascii.eqb x y && compat a' b'
  end.

(** No non-empty suffix of [q] can be continued by [r]. *)
Fixpoint no_head (q r : str) : bool :=
  match q with
  | [] => true
  | _ :: q' => negb (compat q r) && no_head q' r
  end.

(** No occurrence of [p] can start inside [r]. *)
Fixpoint no_inside (p r : str) : bool :=
  match r with
  | [] => true
  | _ :: r' => negb (compat p r) && no_inside p r'
  end.

(** An occurrence of [p] that starts before [r] cannot run into [r]. *)
Definition no_straddle (p r : str) : bool := no_head (tl p) r.

(** [p] does not overlap itself: two occurrences of [p] are disjoint. *)
Definition unbordered (p : str) : bool := no_straddle p p.

(** [p] can neither start inside [r] nor run into it. *)
Definition apart (p r : str) : bool := no_straddle p r && no_inside p r.

(** ** Vocabulary for the further properties *)

(** A rectangle fragment with both dimensions found and one of them
    written with more digits than [int] accepts. *)
Definition over_cap (shape : str) : bool :=
  match kind_of shape with
  | Rectangle =>
      match search_digits (txt "width: ") shape,
            search_digits (txt "height: ") shape with
      | Some w, Some h =>
          (max_str_digits <? length w) || (max_str_digits <? length h)
      | _, _ => false
      end
  | _ => false
  end.

(** The six type markers the loop body looks for. *)
Definition markers : list str :=
  [marker_sq "text"; marker_dq "text"; marker_sq "circle"; marker_dq "circle";
   marker_sq "rectangle"; marker_dq "rectangle"].

(** The two keys of the dimension searches. *)
Definition dimension_keys : list str := [txt "width: "; txt "height: "].

(** A text without its digits. *)
Definition non_digits (s : str) : str :=
  filter (fun c => negb (is_digit c)) s.

(** ** Small runs of the model *)

Example run_text :
  fix_shape (txt " type: 'text', zIndex: 0 },") = txt " type: 'text', zIndex: 10 },".
Proof. reflexivity. Qed.

Example run_double_quotes :
  fix_shape (txt " type: " ++ [dquote] ++ txt "circle" ++ [dquote] ++ txt ", zIndex: 0 },")
  = txt " type: " ++ [dquote] ++ txt "circle" ++ [dquote] ++ txt ", zIndex: 5 },".
Proof. reflexivity. Qed.

Example run_background :
  fix_shape (txt " type: 'rectangle', width: 12000, height: 200, zIndex: 0 },")
  = txt " type: 'rectangle', width: 12000, height: 200, zIndex: 1 },".
Proof. reflexivity. Qed.

Example run_search :
  search_digits (txt "width: ") (txt "width: auto, strokeWidth: 2, minwidth: 0750px")
  = Some (txt "0750") /\ int (txt "0750") = 750%N.
Proof. split; reflexivity. Qed.

Example run_split :
  split delim (txt "a     {b    {    {") = [txt "a "; txt "b"; txt ""; txt ""].
Proof. reflexivity. Qed.

Example run_long_width :
  body (txt " type: 'rectangle', width: " ++ repeat "9"%char 4301 ++
        txt ", height: 1, zIndex: 0 },") = Raise ValueError /\
  body (txt " type: 'rectangle', width: " ++ repeat "9"%char 4300 ++
        txt ", height: 1, zIndex: 0 },") =
  Ok (txt " type: 'rectangle', width: " ++ repeat "9"%char 4300 ++
      txt ", height: 1, zIndex: 1 },").
Proof. split; vm_compute; reflexivity. Qed.

Example run_document :
  transform (txt "x = [
    { type: 'circle', zIndex: 0 },
    { type: 'rectangle', width: 6000, height: 100, zIndex: 0 },
    { type: 'rectangle', width: 100, height: 50, zIndex: 0 },
    { type: 'line', zIndex: 0 }]")
  = Some (txt "x = [
    { type: 'circle', zIndex: 5 },
    { type: 'rectangle', width: 6000, height: 100, zIndex: 2 },
    { type: 'rectangle', width: 100, height: 50, zIndex: 3 },
    { type: 'line', zIndex: 0 }]").
Proof. vm_compute. reflexivity. Qed.

(** ** Prefixes *)

Section Prefix.

Lemma starts_with_nil_r (p : str) : starts_with p [] = true -> p = [].
Proof. destruct p; [reflexivity | discriminate]. Qed.

Lemma starts_with_refl (p t : str) : starts_with p (p ++ t) = true.
Proof.
  induction p as [|a p IH]; simpl; [reflexivity|].
  now rewrite Ascii.eqb_refl.
Qed.

Lemma starts_with_app (p s t : str) :
  starts_with p s = true -> starts_with p (s ++ t) = true.
Proof.
  revert s; induction p as [|a p IH]; intros [|b s]; simpl; try easy.
  intros H; apply andb_true_iff in H as [Hab Hp].
  rewrite Hab; simpl; auto.
Qed.

Lemma starts_with_inv (p s : str) :
  starts_with p s = true -> s = p ++ skipn (length p) s.
Proof.
  revert s; induction p as [|a p IH]; intros [|b s]; simpl; try easy.
  intros H; apply andb_true_iff in H as [Hab Hp].
  apply Ascii.eqb_eq in Hab; subst b.
  f_equal; auto.
Qed.

Lemma starts_with_compat (p r t : str) :
  starts_with p (r ++ t) = true -> compat p r = true.
Proof.
  revert r; induction p as [|a p IH]; intros [|b r]; simpl; try easy.
  intros H; apply andb_true_iff in H as [Hab Hp].
  rewrite Hab; simpl; auto.
Qed.

(** A prefix of [f ++ u] lies within [f] or runs from [f] into [u]. *)
Lemma starts_with_cut (p f u : str) :
  starts_with p (f ++ u) = true ->
  starts_with p f = true \/
  (length f < length p /\ starts_with (skipn (length f) p) u = true).
Proof.
  revert p; induction f as [|c f IH]; intros [|a p]; simpl; auto.
  - intros H; right; split; [lia | exact H].
  - intros H; apply andb_true_iff in H as [Hac Hp].
    rewrite Hac; simpl.
    destruct (IH _ Hp) as [Hin | [Hlen Hrun]]; [now left | right].
    split; [lia | exact Hrun].
Qed.

Lemma no_head_spec (q r : str) :
  no_head q r = true ->
  forall k, k < length q -> compat (skipn k q) r = false.
Proof.
  induction q as [|x q IH]; simpl; intros H k Hk; [lia|].
  apply andb_true_iff in H as [Hq Hrest].
  destruct k as [|k]; simpl.
  - now apply negb_true_iff in Hq.
  - apply IH; [exact Hrest | lia].
Qed.

(** What [no_straddle] is for. *)
Lemma no_straddle_spec (p r t : str) :
  no_straddle p r = true ->
  forall k, 0 < k < length p -> starts_with (skipn k p) (r ++ t) = false.
Proof.
  unfold no_straddle; intros H k Hk.
  destruct (starts_with (skipn k p) (r ++ t)) eqn:E; [|reflexivity].
  apply starts_with_compat in E.
  destruct p as [|a p]; simpl in *; [lia|].
  destruct k as [|k]; [lia|]; simpl in E.
  rewrite (no_head_spec _ _ H k) in E; [discriminate | lia].
Qed.

End Prefix.

(** ** Occurrences *)

Section Occurrences.

Variable p : str.
Hypothesis p_nonempty : p <> [].

Lemma contains_nil : contains p [] = false.
Proof using p_nonempty. destruct p; [congruence | reflexivity]. Qed.

Lemma contains_cons (c : ascii) (s : str) :
  contains p (c :: s) = false ->
  starts_with p (c :: s) = false /\ contains p s = false.
Proof. simpl contains; intros H; now apply orb_false_iff in H. Qed.

Lemma contains_app_r (a b : str) :
  contains p b = true -> contains p (a ++ b) = true.
Proof.
  intros H; induction a as [|c a IH]; [exact H|].
  change (contains p (c :: (a ++ b)) = true); simpl contains.
  rewrite IH; apply orb_true_r.
Qed.

Lemma contains_app_l (a b : str) :
  contains p a = true -> contains p (a ++ b) = true.
Proof using p_nonempty.
  induction a as [|c a IH]; intros H.
  - rewrite contains_nil in H; discriminate.
  - simpl contains in H; apply orb_true_iff in H as [H | H].
    + change (contains p (c :: (a ++ b)) = true); simpl contains.
      change (c :: a ++ b) with ((c :: a) ++ b).
      now rewrite (starts_with_app _ _ b H).
    + change (contains p (c :: (a ++ b)) = true); simpl contains.
      rewrite (IH H); apply orb_true_r.
Qed.

(** A text free of [p] has only parts free of [p]. *)
Lemma free_app (a b : str) :
  contains p (a ++ b) = false ->
  contains p a = false /\ contains p b = false.
Proof using p_nonempty.
  intros H; split.
  - destruct (contains p a) eqn:E; [|reflexivity].
    now rewrite (contains_app_l a b E) in H.
  - destruct (contains p b) eqn:E; [|reflexivity].
    now rewrite (contains_app_r a b E) in H.
Qed.

Lemma free_join_parts (sep : str) (parts : list str) :
  contains p (join sep parts) = false ->
  Forall (fun f => contains p f = false) parts.
Proof using p_nonempty.
  induction parts as [|f [|g rest] IH]; intros H.
  - constructor.
  - constructor; [exact H | constructor].
  - change (contains p (f ++ sep ++ join sep (g :: rest)) = false) in H.
    apply free_app in H as [Hf H]; apply free_app in H as [_ H].
    constructor; auto.
Qed.

(** Gluing texts free of [p]: an occurrence in [f ++ u] would have to run
    from [f] into [u]. *)
Lemma free_glue (f u : str) :
  contains p f = false ->
  (forall k, 0 < k < length p -> starts_with (skipn k p) u = false) ->
  contains p u = false ->
  contains p (f ++ u) = false.
Proof.
  intros Hf Hrun Hu; induction f as [|c f IH]; [exact Hu|].
  apply contains_cons in Hf as [Hhere Hf].
  change (contains p (c :: (f ++ u)) = false); simpl contains.
  rewrite (IH Hf), orb_false_r.
  destruct (starts_with p (c :: f ++ u)) eqn:E; [|reflexivity].
  change (c :: f ++ u) with ((c :: f) ++ u) in E.
  apply starts_with_cut in E as [E | [Hlen E]]; [congruence|].
  rewrite Hrun in E; [discriminate | simpl in *; lia].
Qed.

Lemma free_inside (r rest : str) :
  no_inside p r = true ->
  contains p rest = false ->
  contains p (r ++ rest) = false.
Proof.
  intros Hr Hrest; induction r as [|c r IH]; [exact Hrest|].
  simpl in Hr; apply andb_true_iff in Hr as [Hc Hr].
  change (contains p (c :: (r ++ rest)) = false); simpl contains.
  rewrite (IH Hr), orb_false_r.
  destruct (starts_with p (c :: r ++ rest)) eqn:E; [|reflexivity].
  change (c :: r ++ rest) with ((c :: r) ++ rest) in E.
  apply starts_with_compat in E.
  apply negb_true_iff in Hc; congruence.
Qed.

(** Joining texts free of [p] with a separator that keeps apart from [p]
    gives a text free of [p]. *)
Lemma free_join (r : str) (parts : list str) :
  apart p r = true ->
  Forall (fun f => contains p f = false) parts ->
  contains p (join r parts) = false.
Proof using p_nonempty.
  unfold apart; intros Hr; apply andb_true_iff in Hr as [Hs Hi].
  induction parts as [|f [|g rest] IH]; intros Hparts.
  - apply contains_nil.
  - now inversion Hparts.
  - inversion Hparts as [|? ? Hf Hrest]; subst.
    change (contains p (f ++ r ++ join r (g :: rest)) = false).
    apply free_glue; [exact Hf | | ].
    + intros k Hk; now apply no_straddle_spec.
    + apply free_inside; auto.
Qed.

End Occurrences.

(** ** Cutting at the leftmost occurrence *)

Section Partition.

Variable p : str.
Hypothesis p_nonempty : p <> [].

Lemma partition_cons (c : ascii) (s : str) :
  starts_with p (c :: s) = false ->
  partition p (c :: s) =
  match partition p s with
  | Some (before, after) => Some (c :: before, after)
  | None => None
  end.
Proof. intros H; simpl partition; now rewrite H. Qed.

Lemma partition_some (s before after : str) :
  partition p s = Some (before, after) ->
  s = before ++ p ++ after /\ contains p before = false.
Proof using p_nonempty.
  revert before after; induction s as [|c s IH]; intros before after.
  - simpl; destruct (starts_with p []) eqn:E; [|discriminate].
    apply starts_with_nil_r in E; congruence.
  - destruct (starts_with p (c :: s)) eqn:E.
    + simpl partition; rewrite E; intros H; inversion H; subst; clear H.
      split; [exact (starts_with_inv _ _ E) | now apply contains_nil].
    + rewrite (partition_cons _ _ E).
      destruct (partition p s) as [[b a]|] eqn:Es; [|discriminate].
      intros H; inversion H; subst; clear H.
      destruct (IH _ _ eq_refl) as [Hs Hfree]; split.
      * simpl; now f_equal.
      * simpl contains; rewrite Hfree, orb_false_r.
        destruct (starts_with p (c :: b)) eqn:Eb; [|reflexivity].
        apply (starts_with_app _ _ (p ++ after)) in Eb.
        simpl in Eb; rewrite <- Hs in Eb; congruence.
Qed.

Lemma partition_none (s : str) :
  partition p s = None <-> contains p s = false.
Proof.
  induction s as [|c s IH]; simpl.
  - destruct (starts_with p []); simpl; split; congruence.
  - destruct (starts_with p (c :: s)); simpl; [split; congruence|].
    rewrite <- IH.
    destruct (partition p s) as [[b a]|]; split; congruence.
Qed.

Lemma partition_contains (s : str) :
  contains p s = true -> exists before after, partition p s = Some (before, after).
Proof.
  intros H; destruct (partition p s) as [[b a]|] eqn:E; [eauto|].
  apply partition_none in E; congruence.
Qed.

Lemma partition_shorter (s before after : str) :
  partition p s = Some (before, after) -> length after < length s.
Proof using p_nonempty.
  intros H; apply partition_some in H as [-> _].
  rewrite !length_app.
  destruct p; [congruence | simpl; lia].
Qed.

(** The leftmost occurrence stays the leftmost when text is appended. *)
Lemma partition_app (s t before after : str) :
  partition p s = Some (before, after) ->
  partition p (s ++ t) = Some (before, after ++ t).
Proof using p_nonempty.
  revert before after; induction s as [|c s IH]; intros before after H.
  - apply partition_some in H as [H _].
    destruct before, p; simpl in H; congruence.
  - destruct (starts_with p (c :: s)) eqn:E.
    + simpl partition in H; rewrite E in H; inversion H; subst; clear H.
      change ((c :: s) ++ t) with (c :: s ++ t).
      simpl partition.
      change (c :: s ++ t) with ((c :: s) ++ t).
      rewrite (starts_with_app _ _ t E).
      f_equal; f_equal.
      rewrite skipn_app.
      replace (length p - length (c :: s)) with 0; [reflexivity|].
      assert (Hl := f_equal (@length _) (starts_with_inv _ _ E)).
      rewrite length_app in Hl; lia.
    + rewrite (partition_cons _ _ E) in H.
      destruct (partition p s) as [[b a]|] eqn:Es; [|discriminate].
      inversion H; subst; clear H.
      change ((c :: s) ++ t) with (c :: (s ++ t)).
      rewrite partition_cons, (IH _ _ eq_refl); [reflexivity|].
      destruct (starts_with p (c :: s ++ t)) eqn:Et; [|reflexivity].
      change (c :: s ++ t) with ((c :: s) ++ t) in Et.
      apply starts_with_cut in Et as [Et | [Hlen _]]; [congruence|].
      apply partition_some in Es as [-> _].
      simpl in Hlen; rewrite !length_app in Hlen; lia.
Qed.

(** When [p] does not overlap itself, the occurrence that follows a text
    free of [p] is the leftmost one. *)
Lemma partition_free (f rest : str) :
  unbordered p = true ->
  contains p f = false ->
  partition p (f ++ p ++ rest) = Some (f, rest).
Proof using p_nonempty.
  intros Hp; induction f as [|c f IH]; intros Hf.
  - simpl app.
    assert (E : starts_with p (p ++ rest) = true) by apply starts_with_refl.
    destruct p as [|a q]; [congruence|].
    simpl partition; simpl starts_with in E; rewrite E.
    f_equal; f_equal.
    change (skipn (length (a :: q)) ((a :: q) ++ rest) = rest).
    rewrite skipn_app, skipn_all, Nat.sub_diag; reflexivity.
  - apply (contains_cons p) in Hf as [Hhere Hf].
    change ((c :: f) ++ p ++ rest) with (c :: (f ++ p ++ rest)).
    rewrite partition_cons, (IH Hf); [reflexivity|].
    destruct (starts_with p (c :: f ++ p ++ rest)) eqn:E; [|reflexivity].
    change (c :: f ++ p ++ rest) with ((c :: f) ++ p ++ rest) in E.
    apply starts_with_cut in E as [E | [Hlen E]]; [congruence|].
    rewrite (no_straddle_spec p p rest Hp) in E; [discriminate|].
    simpl in *; lia.
Qed.

(** Induction along the cuts [split] and [re_sub] make. *)
Lemma cut_ind (P : str -> Prop) :
  (forall s, partition p s = None -> P s) ->
  (forall s before after,
      partition p s = Some (before, after) -> P after -> P s) ->
  forall s, P s.
Proof using p_nonempty.
  intros Hnone Hsome s.
  remember (length s) as n eqn:Hn.
  revert s Hn; induction n as [n IH] using lt_wf_ind; intros s ->.
  destruct (partition p s) as [[b a]|] eqn:E.
  - apply (Hsome s b a E), (IH (length a)); [|reflexivity].
    exact (partition_shorter _ _ _ E).
  - now apply Hnone.
Qed.

(** [length s] rounds are enough for [split] ... *)
Lemma split_rounds_enough (n : nat) (s : str) :
  length s <= n -> split_rounds n p s = split p s.
Proof using p_nonempty.
  unfold split; revert n.
  induction s as [s Hs | s b a E IH] using cut_ind; intros n Hn.
  - destruct n, (length s); simpl; rewrite ?Hs; reflexivity.
  - assert (Ha := partition_shorter _ _ _ E).
    destruct n as [|n]; [lia|].
    destruct (length s) as [|m] eqn:El; [lia|].
    simpl; rewrite E; f_equal.
    rewrite (IH n), (IH m); [reflexivity | lia | lia].
Qed.

Lemma split_eq (s : str) :
  split p s =
  match partition p s with
  | None => [s]
  | Some (before, after) => before :: split p after
  end.
Proof using p_nonempty.
  destruct (partition p s) as [[b a]|] eqn:E.
  - unfold split at 1.
    assert (Ha := partition_shorter _ _ _ E).
    destruct (length s) as [|n] eqn:El; [lia|].
    simpl; rewrite E; f_equal.
    apply split_rounds_enough; lia.
  - unfold split; destruct (length s); simpl; rewrite ?E; reflexivity.
Qed.

(** ... and for [re_sub]. *)
Lemma sub_rounds_enough (r : str) (n : nat) (s : str) :
  length s <= n -> sub_rounds n p r s = re_sub p r s.
Proof using p_nonempty.
  unfold re_sub; revert n.
  induction s as [s Hs | s b a E IH] using cut_ind; intros n Hn.
  - destruct n, (length s); simpl; rewrite ?Hs; reflexivity.
  - assert (Ha := partition_shorter _ _ _ E).
    destruct n as [|n]; [lia|].
    destruct (length s) as [|m] eqn:El; [lia|].
    simpl; rewrite E; do 2 f_equal.
    rewrite (IH n), (IH m); [reflexivity | lia | lia].
Qed.

Lemma re_sub_eq (r s : str) :
  re_sub p r s =
  match partition p s with
  | None => s
  | Some (before, after) => before ++ r ++ re_sub p r after
  end.
Proof using p_nonempty.
  destruct (partition p s) as [[b a]|] eqn:E.
  - unfold re_sub at 1.
    assert (Ha := partition_shorter _ _ _ E).
    destruct (length s) as [|n] eqn:El; [lia|].
    simpl; rewrite E; do 2 f_equal.
    apply sub_rounds_enough; lia.
  - unfold re_sub; destruct (length s); simpl; rewrite ?E; reflexivity.
Qed.

End Partition.

(** ** Split, join and substitution *)

Section SplitJoin.

Variable p : str.
Hypothesis p_nonempty : p <> [].

Lemma split_nonempty (s : str) : split p s <> [].
Proof using p_nonempty.
  rewrite split_eq by assumption.
  destruct (partition p s) as [[b a]|]; discriminate.
Qed.

Lemma join_cons (sep f : str) (rest : list str) :
  rest <> [] -> join sep (f :: rest) = f ++ sep ++ join sep rest.
Proof. destruct rest; [congruence | reflexivity]. Qed.

(** The fragments of a split hold no separator. *)
Lemma split_free (s : str) :
  Forall (fun f => contains p f = false) (split p s).
Proof using p_nonempty.
  induction s as [s Hs | s b a E IH] using (cut_ind p p_nonempty);
    rewrite split_eq by assumption.
  - rewrite Hs; constructor; [now apply partition_none | constructor].
  - rewrite E; constructor; [|exact IH].
    now apply (partition_some p p_nonempty) in E.
Qed.

(** Joining the fragments gives the text back. *)
Lemma join_split (s : str) : join p (split p s) = s.
Proof using p_nonempty.
  induction s as [s Hs | s b a E IH] using (cut_ind p p_nonempty);
    rewrite split_eq by assumption.
  - now rewrite Hs.
  - rewrite E, join_cons, IH by apply split_nonempty.
    now apply (partition_some p p_nonempty) in E as [<- _].
Qed.

(** Splitting a join of separator-free fragments gives the fragments back,
    when the separator does not overlap itself. *)
Lemma split_join (parts : list str) :
  unbordered p = true ->
  parts <> [] ->
  Forall (fun f => contains p f = false) parts ->
  split p (join p parts) = parts.
Proof using p_nonempty.
  intros Hp; induction parts as [|f [|g rest] IH]; intros Hne Hparts;
    [congruence | | ]; inversion Hparts as [|? ? Hf Hrest]; subst.
  - simpl join; rewrite split_eq by assumption.
    apply partition_none in Hf; now rewrite Hf.
  - change (join p (f :: g :: rest)) with (f ++ p ++ join p (g :: rest)).
    rewrite split_eq, partition_free by assumption.
    f_equal; apply IH; [discriminate | exact Hrest].
Qed.

(** [re.sub] is split and join. *)
Lemma re_sub_join (r s : str) : re_sub p r s = join r (split p s).
Proof using p_nonempty.
  induction s as [s Hs | s b a E IH] using (cut_ind p p_nonempty);
    rewrite re_sub_eq, split_eq by assumption.
  - now rewrite Hs.
  - now rewrite E, join_cons, IH by apply split_nonempty.
Qed.

(** Without an occurrence there is nothing to substitute. *)
Lemma re_sub_free (r s : str) : contains p s = false -> re_sub p r s = s.
Proof using p_nonempty.
  intros H; rewrite re_sub_eq by assumption.
  apply partition_none in H; now rewrite H.
Qed.

(** With an occurrence, the replacement is in the result. *)
Lemma re_sub_contains (r s : str) :
  r <> [] -> contains p s = true -> contains r (re_sub p r s) = true.
Proof using p_nonempty.
  intros Hr H; apply partition_contains in H as (b & a & E).
  rewrite re_sub_eq, E by assumption.
  apply contains_app_r, contains_app_l; [exact Hr|].
  assert (Hrr : starts_with r r = true).
  { rewrite <- (app_nil_r r) at 2; apply starts_with_refl. }
  destruct r; [congruence|].
  unfold contains; fold contains; now rewrite Hrr.
Qed.

(** A replacement that keeps apart from the pattern leaves no occurrence
    of the pattern behind. *)
Lemma re_sub_clean (r s : str) :
  apart p r = true -> contains p (re_sub p r s) = false.
Proof using p_nonempty.
  intros Hr; rewrite re_sub_join.
  apply free_join; [assumption | assumption | apply split_free].
Qed.

(** A replacement that keeps apart from another pattern [q] does not
    bring [q] into a text free of [q]. *)
Lemma re_sub_keeps_free (q r s : str) :
  q <> [] -> apart q r = true ->
  contains q s = false -> contains q (re_sub p r s) = false.
Proof using p_nonempty.
  intros Hq Hr Hs; rewrite re_sub_join.
  apply free_join; [assumption | assumption |].
  apply (free_join_parts q Hq p).
  now rewrite join_split.
Qed.

Lemma re_sub_cons (r : str) (c : ascii) (s : str) :
  starts_with p (c :: s) = false ->
  re_sub p r (c :: s) = c :: re_sub p r s.
Proof using p_nonempty.
  intros H; rewrite (re_sub_eq p p_nonempty r (c :: s)), partition_cons by assumption.
  rewrite (re_sub_eq p p_nonempty r s).
  destruct (partition p s) as [[b a]|]; reflexivity.
Qed.

(** Every occurrence of a pattern that does not overlap itself is
    replaced, wherever it stands. *)
Lemma re_sub_app (r before after : str) :
  unbordered p = true ->
  re_sub p r (before ++ p ++ after) =
  re_sub p r before ++ r ++ re_sub p r after.
Proof using p_nonempty.
  intros Hp.
  induction before as [s Hs | s b a E IH] using (cut_ind p p_nonempty).
  - rewrite (re_sub_eq p p_nonempty r (s ++ p ++ after)).
    apply partition_none in Hs.
    rewrite partition_free by assumption.
    now rewrite (re_sub_free r s Hs).
  - rewrite (re_sub_eq p p_nonempty r (s ++ p ++ after)).
    rewrite (partition_app p p_nonempty _ _ _ _ E), IH.
    rewrite (re_sub_eq p p_nonempty r s), E.
    now rewrite <- !app_assoc.
Qed.

End SplitJoin.

(** ** The literals of the script *)

Lemma delim_nonempty : delim <> [].
Proof. discriminate. Qed.

Lemma placeholder_nonempty : placeholder <> [].
Proof. discriminate. Qed.

Lemma delim_unbordered : unbordered delim = true.
Proof. reflexivity. Qed.

Lemma placeholder_unbordered : unbordered placeholder = true.
Proof. reflexivity. Qed.

(** Every replacement keeps apart from the delimiter and from the
    placeholder, and none is empty. *)
Lemma replacements_apart (v : str) :
  In v replacements ->
  apart delim v = true /\ apart placeholder v = true /\ v <> [].
Proof.
  unfold replacements; simpl In.
  intros [<- | [<- | [<- | [<- | [<- | []]]]]];
    (split; [reflexivity | split; [reflexivity | discriminate]]).
Qed.

Lemma rectangle_zindex_in (width height : N) :
  In (rectangle_zindex width height) replacements.
Proof.
  unfold rectangle_zindex, replacements.
  repeat match goal with |- context [if ?b then _ else _] => destruct b end;
    simpl; tauto.
Qed.

(** ** The loop body *)

Lemma assigned_in (shape v : str) :
  assigned shape = Some v -> In v replacements.
Proof.
  unfold assigned.
  destruct (kind_of shape);
    [ | | destruct (search_digits _ shape); [destruct (search_digits _ shape)|] | ];
    intros H; inversion H; subst; clear H;
    try apply rectangle_zindex_in; unfold replacements; simpl; tauto.
Qed.

(** The loop body does what the rule table assigns. *)
Lemma fix_shape_assigned (shape : str) :
  fix_shape shape =
  match assigned shape with
  | Some v => re_sub placeholder v shape
  | None => shape
  end.
Proof.
  unfold fix_shape, assigned, kind_of.
  destruct (has_marker "text" shape); [reflexivity|].
  destruct (has_marker "circle" shape); [reflexivity|].
  destruct (has_marker "rectangle" shape); [|reflexivity].
  destruct (search_digits (txt "width: ") shape); [|reflexivity].
  destruct (search_digits (txt "height: ") shape); reflexivity.
Qed.

(** A fragment without the placeholder is left as it is. *)
Lemma fix_shape_free (shape : str) :
  contains placeholder shape = false -> fix_shape shape = shape.
Proof.
  intros H; rewrite fix_shape_assigned.
  destruct (assigned shape); [|reflexivity].
  now apply re_sub_free; [apply placeholder_nonempty|].
Qed.

(** Once a fragment has been rewritten, no placeholder is left in it. *)
Lemma fix_shape_clean (shape v : str) :
  assigned shape = Some v -> contains placeholder (fix_shape shape) = false.
Proof.
  intros H; rewrite fix_shape_assigned, H.
  apply re_sub_clean; [apply placeholder_nonempty|].
  now apply replacements_apart, (assigned_in shape).
Qed.

Lemma fix_shape_idem (shape : str) :
  fix_shape (fix_shape shape) = fix_shape shape.
Proof.
  destruct (assigned shape) as [v|] eqn:E.
  - apply fix_shape_free, (fix_shape_clean shape v E).
  - rewrite (fix_shape_assigned shape), E.
    now rewrite fix_shape_assigned, E.
Qed.

(** The loop body neither creates nor destroys a delimiter. *)
Lemma fix_shape_keeps_delim_free (shape : str) :
  contains delim shape = false -> contains delim (fix_shape shape) = false.
Proof.
  intros H; rewrite fix_shape_assigned.
  destruct (assigned shape) as [v|] eqn:E; [|exact H].
  apply re_sub_keeps_free;
    [apply placeholder_nonempty | apply delim_nonempty | | exact H].
  now apply replacements_apart, (assigned_in shape).
Qed.

(** ** The whole transformation *)

Lemma loop_map (fixed_shapes rest : list str) :
  loop fixed_shapes rest = fixed_shapes ++ map fix_shape rest.
Proof.
  unfold loop; revert fixed_shapes.
  induction rest as [|shape rest IH]; intros acc; simpl.
  - now rewrite app_nil_r.
  - now rewrite IH, <- app_assoc.
Qed.

Lemma split_header (content : str) :
  exists others, split delim content = header content :: others.
Proof.
  rewrite split_eq by apply delim_nonempty; unfold header.
  destruct (partition delim content) as [[b a]|]; eauto.
Qed.

Lemma transform_eq (content first : str) (others : list str) :
  split delim content = first :: others ->
  transform content = Some (join delim (first :: map fix_shape others)).
Proof. intros H; unfold transform; now rewrite H, loop_map. Qed.

(** The script never fails on [shapes[0]]. *)
Lemma transform_total (content : str) :
  exists out, transform content = Some out.
Proof.
  destruct (split_header content) as [others H].
  rewrite (transform_eq _ _ _ H); eauto.
Qed.

(** Splitting the output gives the fixed fragments back. *)
Lemma split_fixed (content first : str) (others : list str) :
  split delim content = first :: others ->
  split delim (join delim (first :: map fix_shape others)) =
  first :: map fix_shape others.
Proof.
  intros H.
  assert (Hfree := split_free delim delim_nonempty content).
  rewrite H in Hfree; inversion Hfree as [|? ? Hfirst Hothers]; subst.
  apply split_join;
    [apply delim_nonempty | apply delim_unbordered | discriminate |].
  constructor; [exact Hfirst|].
  apply Forall_map.
  eapply Forall_impl; [|exact Hothers].
  intros f; apply fix_shape_keeps_delim_free.
Qed.

Lemma join_flat (sep first : str) (rest : list str) :
  join sep (first :: rest) = first ++ flat_map (fun f => sep ++ f) rest.
Proof.
  revert first; induction rest as [|g rest IH]; intros first.
  - simpl; now rewrite app_nil_r.
  - rewrite join_cons by discriminate.
    rewrite IH; simpl flat_map; now rewrite <- app_assoc.
Qed.

(** ** Reading the dimensions *)

Lemma int_snoc (ds : str) (d : ascii) :
  int (ds ++ [d]) = (10 * int ds + digit_value d)%N.
Proof. unfold int; now rewrite fold_left_app. Qed.

Lemma digit_run_digits (s : str) : forallb is_digit (digit_run s) = true.
Proof.
  induction s as [|c s IH]; simpl; [reflexivity|].
  destruct (is_digit c) eqn:E; simpl; [now rewrite E|reflexivity].
Qed.

Lemma strip_prefix_some (key s rest : str) :
  strip_prefix key s = Some rest -> s = key ++ rest.
Proof.
  revert s; induction key as [|a key IH]; intros [|b s]; simpl; try congruence.
  destruct (Ascii.eqb a b) eqn:E; [|discriminate].
  apply Ascii.eqb_eq in E; subst b.
  intros H; f_equal; auto.
Qed.

(** What [re.search] hands over is a non-empty run of digits that follows
    the key somewhere in the fragment. *)
Lemma search_digits_sound (key s ds : str) :
  search_digits key s = Some ds ->
  ds <> [] /\ forallb is_digit ds = true /\
  exists before rest, s = before ++ key ++ rest /\ ds = digit_run rest.
Proof.
  induction s as [|c s IH]; simpl.
  - destruct (strip_prefix key []) as [rest|] eqn:E; [|discriminate].
    destruct (digit_run rest) as [|d r] eqn:Er; [discriminate|].
    intros H; inversion H; subst; clear H.
    split; [discriminate|]; split; [rewrite <- Er; apply digit_run_digits|].
    exists [], rest; split;
      [now apply strip_prefix_some in E | now rewrite Er].
  - destruct (strip_prefix key (c :: s)) as [rest|] eqn:E.
    + destruct (digit_run rest) as [|d r] eqn:Er.
      * intros H; destruct (IH H) as (Hne & Hd & b & t & -> & Hrun).
        split; [exact Hne|]; split; [exact Hd|].
        now exists (c :: b), t.
      * intros H; inversion H; subst; clear H.
        split; [discriminate|]; split; [rewrite <- Er; apply digit_run_digits|].
        exists [], rest; split;
          [now apply strip_prefix_some in E | now rewrite Er].
    + intros H; destruct (IH H) as (Hne & Hd & b & t & -> & Hrun).
      split; [exact Hne|]; split; [exact Hd|].
      now exists (c :: b), t.
Qed.

(** ** When the script raises *)

(** The body raises exactly on an over-long dimension, and otherwise
    returns what [fix_shape] gives. *)
Lemma body_spec (shape : str) :
  body shape =
  if over_cap shape then Raise ValueError else Ok (fix_shape shape).
Proof.
  unfold body, over_cap, fix_shape, kind_of, int_call.
  destruct (has_marker "text" shape); [reflexivity|].
  destruct (has_marker "circle" shape); [reflexivity|].
  destruct (has_marker "rectangle" shape); [|reflexivity].
  destruct (search_digits (txt "width: ") shape) as [w|]; [|reflexivity].
  destruct (search_digits (txt "height: ") shape) as [h|]; [|reflexivity].
  destruct (Nat.leb_spec (length w) max_str_digits),
           (Nat.ltb_spec max_str_digits (length w)); try lia;
    simpl; [|reflexivity].
  destruct (Nat.leb_spec (length h) max_str_digits),
           (Nat.ltb_spec max_str_digits (length h)); try lia; reflexivity.
Qed.

Lemma run_loop_spec (fixed_shapes rest : list str) :
  run_loop fixed_shapes rest =
  if existsb over_cap rest then Raise ValueError
  else Ok (loop fixed_shapes rest).
Proof.
  revert fixed_shapes; induction rest as [|shape rest IH]; intros acc;
    [reflexivity|].
  simpl run_loop; rewrite body_spec; simpl existsb.
  destruct (over_cap shape); [reflexivity|].
  rewrite IH; reflexivity.
Qed.

(** The script raises exactly when a shape fragment holds an over-long
    dimension, and otherwise returns what [transform] gives. *)
Lemma run_spec (content : str) :
  exists out,
    transform content = Some out /\
    run content =
    if existsb over_cap (tl (split delim content)) then Raise ValueError
    else Ok out.
Proof.
  destruct (split_header content) as [others H].
  exists (join delim (loop [header content] others)).
  unfold transform, run; rewrite H, run_loop_spec; simpl tl.
  split; [reflexivity|].
  destruct (existsb over_cap others); reflexivity.
Qed.

(** * The claims *)

(** ** C1: how many occurrences are replaced *)

(** C1, as stated, fails: in a text fragment with two occurrences of
    [zIndex: 0] both are replaced, where a first-match substitution would
    leave the second one alone. *)
Lemma C1_counterexample :
  let shape := txt " type: 'text', zIndex: 0, note: 'zIndex: 0' }," in
  occurrences placeholder shape = 2 /\
  fix_shape shape = txt " type: 'text', zIndex: 10, note: 'zIndex: 10' }," /\
  sub_first placeholder (zindex "10") shape =
    txt " type: 'text', zIndex: 10, note: 'zIndex: 0' }," /\
  ~ first_only shape.
Proof.
  cbv zeta; repeat split; try reflexivity.
  intros H; specialize (H (zindex "10") eq_refl).
  vm_compute in H; discriminate.
Qed.

(** C1, amended: in every fragment to which the rule table assigns a
    literal, every occurrence of [zIndex: 0] is replaced by that literal,
    wherever it stands, and none is left; the text up to and including the
    first replacement is that of a first-match substitution, and the whole
    result is when nothing follows the first occurrence but text free of
    the placeholder. *)
Theorem C1_every_occurrence (shape v : str) :
  assigned shape = Some v ->
  fix_shape shape = join v (split placeholder shape) /\
  contains placeholder (fix_shape shape) = false /\
  (forall before after, shape = before ++ placeholder ++ after ->
     fix_shape shape =
     re_sub placeholder v before ++ v ++ re_sub placeholder v after) /\
  (forall before after, partition placeholder shape = Some (before, after) ->
     sub_first placeholder v shape = before ++ v ++ after /\
     fix_shape shape = before ++ v ++ re_sub placeholder v after /\
     (contains placeholder after = false ->
      fix_shape shape = sub_first placeholder v shape)).
Proof.
  intros Hv.
  assert (Hne := placeholder_nonempty).
  split; [|split; [|split]].
  - rewrite fix_shape_assigned, Hv; now apply re_sub_join.
  - exact (fix_shape_clean shape v Hv).
  - intros before after ->.
    rewrite fix_shape_assigned, Hv.
    apply re_sub_app; [exact Hne | apply placeholder_unbordered].
  - intros before after E.
    unfold sub_first; rewrite fix_shape_assigned, Hv.
    rewrite (re_sub_eq placeholder Hne v shape), E.
    split; [reflexivity|]; split; [reflexivity|].
    intros Hafter; now rewrite (re_sub_free placeholder Hne v after Hafter).
Qed.

Lemma C1_every_occurrence_witness :
  let shape := txt " type: 'circle', zIndex: 0, note: 'zIndex: 0' }," in
  assigned shape = Some (zindex "5") /\
  fix_shape shape = join (zindex "5") (split placeholder shape) /\
  contains placeholder (fix_shape shape) = false.
Proof.
  cbv zeta; split; [reflexivity|].
  pose proof (C1_every_occurrence
    (txt " type: 'circle', zIndex: 0, note: 'zIndex: 0' },")
    (zindex "5") eq_refl) as H.
  split; [exact (proj1 H) | exact (proj1 (proj2 H))].
Defined.

(** ** C2: the size bands of a rectangle *)

(** C2: a rectangle fragment whose width and height are found and which
    holds the placeholder gets 1 when a dimension reaches 10000, 1 when one
    reaches 8000, otherwise 2 when one reaches 5000, and 3 when both are
    below 5000. *)
Theorem C2_rectangle_bands (shape w h : str) :
  kind_of shape = Rectangle ->
  search_digits (txt "width: ") shape = Some w ->
  search_digits (txt "height: ") shape = Some h ->
  contains placeholder shape = true ->
  exists v : string,
    fix_shape shape = re_sub placeholder (zindex v) shape /\
    contains (zindex v) (fix_shape shape) = true /\
    ((10000 <= int w \/ 10000 <= int h -> v = "1") /\
     (8000 <= int w \/ 8000 <= int h -> v = "1") /\
     (int w < 8000 -> int h < 8000 ->
      5000 <= int w \/ 5000 <= int h -> v = "2") /\
     (int w < 5000 -> int h < 5000 -> v = "3"))%N%string.
Proof.
  intros Hk Hw Hh Hz.
  assert (Ha : assigned shape = Some (rectangle_zindex (int w) (int h))).
  { unfold assigned; now rewrite Hk, Hw, Hh. }
  assert (Hsub : forall v : string,
             rectangle_zindex (int w) (int h) = zindex v ->
             fix_shape shape = re_sub placeholder (zindex v) shape /\
             contains (zindex v) (fix_shape shape) = true).
  { intros v Hv; rewrite fix_shape_assigned, Ha, Hv; split; [reflexivity|].
    apply re_sub_contains; [apply placeholder_nonempty | | exact Hz].
    rewrite <- Hv.
    exact (proj2 (proj2 (replacements_apart _ (rectangle_zindex_in _ _)))). }
  unfold rectangle_zindex in Hsub.
  destruct (10000 <=? int w)%N eqn:E1, (10000 <=? int h)%N eqn:E2;
    simpl in Hsub;
    try (exists "1"%string; destruct (Hsub "1"%string eq_refl);
         repeat split; auto; intros;
         rewrite ?N.leb_le, ?N.leb_gt in *; lia).
  destruct (8000 <=? int w)%N eqn:E3, (8000 <=? int h)%N eqn:E4;
    simpl in Hsub;
    try (exists "1"%string; destruct (Hsub "1"%string eq_refl);
         repeat split; auto; intros;
         rewrite ?N.leb_le, ?N.leb_gt in *; lia).
  destruct (5000 <=? int w)%N eqn:E5, (5000 <=? int h)%N eqn:E6;
    simpl in Hsub;
    try (exists "2"%string; destruct (Hsub "2"%string eq_refl);
         repeat split; auto; intros;
         rewrite ?N.leb_le, ?N.leb_gt in *; lia).
  exists "3"%string; destruct (Hsub "3"%string eq_refl).
  repeat split; auto; intros; rewrite ?N.leb_le, ?N.leb_gt in *; lia.
Qed.

Lemma C2_rectangle_bands_witness :
  let shape := txt " type: 'rectangle', width: 6000, height: 100, zIndex: 0 }," in
  kind_of shape = Rectangle /\
  search_digits (txt "width: ") shape = Some (txt "6000") /\
  search_digits (txt "height: ") shape = Some (txt "100") /\
  int (txt "6000") = 6000%N /\ int (txt "100") = 100%N /\
  contains placeholder shape = true /\
  exists v : string,
    fix_shape shape = re_sub placeholder (zindex v) shape /\
    contains (zindex v) (fix_shape shape) = true /\
    ((10000 <= int (txt "6000") \/ 10000 <= int (txt "100") -> v = "1") /\
     (8000 <= int (txt "6000") \/ 8000 <= int (txt "100") -> v = "1") /\
     (int (txt "6000") < 8000 -> int (txt "100") < 8000 ->
      5000 <= int (txt "6000") \/ 5000 <= int (txt "100") -> v = "2") /\
     (int (txt "6000") < 5000 -> int (txt "100") < 5000 -> v = "3"))%N%string.
Proof.
  cbv zeta; do 6 (split; [reflexivity|]).
  apply (C2_rectangle_bands
    (txt " type: 'rectangle', width: 6000, height: 100, zIndex: 0 },")
    (txt "6000") (txt "100")); reflexivity.
Defined.

(** ** C3: text and circle fragments *)

Lemma kind_of_text (shape : str) :
  kind_of shape = Text <-> has_marker "text" shape = true.
Proof.
  unfold kind_of; destruct (has_marker "text" shape); [easy|].
  destruct (has_marker "circle" shape); [easy|].
  destruct (has_marker "rectangle" shape); easy.
Qed.

Lemma kind_of_circle (shape : str) :
  kind_of shape = Circle <->
  has_marker "text" shape = false /\ has_marker "circle" shape = true.
Proof.
  unfold kind_of; destruct (has_marker "text" shape); [easy|].
  destruct (has_marker "circle" shape); [easy|].
  destruct (has_marker "rectangle" shape); easy.
Qed.

Lemma kind_of_rectangle (shape : str) :
  kind_of shape = Rectangle <->
  has_marker "text" shape = false /\ has_marker "circle" shape = false /\
  has_marker "rectangle" shape = true.
Proof.
  unfold kind_of; destruct (has_marker "text" shape); [easy|].
  destruct (has_marker "circle" shape); [easy|].
  destruct (has_marker "rectangle" shape); easy.
Qed.

Lemma kind_of_unclassified (shape : str) :
  kind_of shape = Unclassified <->
  has_marker "text" shape = false /\ has_marker "circle" shape = false /\
  has_marker "rectangle" shape = false.
Proof.
  unfold kind_of; destruct (has_marker "text" shape); [easy|].
  destruct (has_marker "circle" shape); [easy|].
  destruct (has_marker "rectangle" shape); easy.
Qed.

(** C3: a text fragment holding the placeholder comes out holding
    [zIndex: 10], and differs from the input only where a placeholder was
    substituted: input and output are the same placeholder-free pieces,
    joined by [zIndex: 0] in the one and by [zIndex: 10] in the other.  A
    circle fragment holding the placeholder comes out holding
    [zIndex: 5]. *)
Theorem C3_text_and_circle (shape : str) :
  contains placeholder shape = true ->
  (kind_of shape = Text ->
   contains (zindex "10") (fix_shape shape) = true /\
   exists pieces,
     Forall (fun f => contains placeholder f = false) pieces /\
     shape = join placeholder pieces /\
     fix_shape shape = join (zindex "10") pieces) /\
  (kind_of shape = Circle ->
   contains (zindex "5") (fix_shape shape) = true).
Proof.
  intros Hz.
  assert (Hne := placeholder_nonempty).
  split; intros Hk.
  - assert (Ha : assigned shape = Some (zindex "10"))
      by (unfold assigned; now rewrite Hk).
    rewrite fix_shape_assigned, Ha; split.
    + apply re_sub_contains; [exact Hne | discriminate | exact Hz].
    + exists (split placeholder shape); split; [now apply split_free|].
      split; [symmetry; now apply join_split | now apply re_sub_join].
  - assert (Ha : assigned shape = Some (zindex "5"))
      by (unfold assigned; now rewrite Hk).
    rewrite fix_shape_assigned, Ha.
    apply re_sub_contains; [exact Hne | discriminate | exact Hz].
Qed.

Lemma C3_text_and_circle_witness :
  let text := txt " type: 'text', fontSize: 20, zIndex: 0 }," in
  let circle := txt " type: 'circle', radius: 40, zIndex: 0 }," in
  (contains placeholder text = true /\ kind_of text = Text /\
   contains (zindex "10") (fix_shape text) = true) /\
  (contains placeholder circle = true /\ kind_of circle = Circle /\
   contains (zindex "5") (fix_shape circle) = true).
Proof.
  cbv zeta; split; (split; [reflexivity|]; split; [reflexivity|]).
  - exact (proj1 (proj1 (C3_text_and_circle
      (txt " type: 'text', fontSize: 20, zIndex: 0 },") eq_refl) eq_refl)).
  - exact (proj2 (C3_text_and_circle
      (txt " type: 'circle', radius: 40, zIndex: 0 },") eq_refl) eq_refl).
Defined.

(** ** C4: the header *)

(** C4: the script returns a document that begins with the header of the
    input and whose own header is that same text; the header is the whole
    document when it holds no delimiter. *)
Theorem C4_header_preserved (content : str) :
  exists out rest,
    transform content = Some out /\
    out = header content ++ rest /\
    header out = header content /\
    (contains delim content = false -> header content = content).
Proof.
  destruct (split_header content) as [others H].
  exists (join delim (header content :: map fix_shape others)).
  exists (flat_map (fun f => delim ++ f) (map fix_shape others)).
  split; [exact (transform_eq _ _ _ H)|].
  split; [apply join_flat|]; split.
  - destruct (split_header (join delim (header content :: map fix_shape others)))
      as [others' H'].
    rewrite (split_fixed _ _ _ H) in H'.
    now inversion H'.
  - intros Hfree; apply partition_none in Hfree.
    unfold header; now rewrite Hfree.
Qed.

Lemma C4_header_preserved_witness :
  let content := txt "export const t = [
    { type: 'text', zIndex: 0 }]" in
  exists out rest,
    transform content = Some out /\
    out = header content ++ rest /\
    header out = header content /\
    (contains delim content = false -> header content = content).
Proof. cbv zeta; apply C4_header_preserved. Defined.

(** ** C5: fragments of no recognised kind *)

(** C5: a fragment with none of the six type markers is returned as it
    is, placeholder or not. *)
Theorem C5_unclassified (shape : str) :
  contains (marker_sq "text") shape = false ->
  contains (marker_dq "text") shape = false ->
  contains (marker_sq "circle") shape = false ->
  contains (marker_dq "circle") shape = false ->
  contains (marker_sq "rectangle") shape = false ->
  contains (marker_dq "rectangle") shape = false ->
  kind_of shape = Unclassified /\ fix_shape shape = shape.
Proof.
  intros Ht1 Ht2 Hc1 Hc2 Hr1 Hr2.
  unfold kind_of, fix_shape, has_marker.
  now rewrite Ht1, Ht2, Hc1, Hc2, Hr1, Hr2.
Qed.

Lemma C5_unclassified_witness :
  let shape := txt " type: 'line', width: 9000, height: 2, zIndex: 0 }," in
  contains placeholder shape = true /\
  kind_of shape = Unclassified /\ fix_shape shape = shape.
Proof.
  cbv zeta; split; [reflexivity|].
  apply (C5_unclassified
    (txt " type: 'line', width: 9000, height: 2, zIndex: 0 },"));
    reflexivity.
Defined.

(** ** C6: rectangles without dimensions *)

(** C6: a rectangle fragment in which the width pattern or the height
    pattern finds nothing is returned as it is, and the loop body raises
    nothing on it.  In a document on whose fragments no [int] call raises,
    the script runs to the end, prints its fixed summary, and the
    fragment stands unchanged in the output. *)
Theorem C6_rectangle_without_dimensions (shape : str) :
  kind_of shape = Rectangle ->
  search_digits (txt "width: ") shape = None \/
  search_digits (txt "height: ") shape = None ->
  fix_shape shape = shape /\
  body shape = Ok shape /\
  forall content,
    In shape (tl (split delim content)) ->
    existsb over_cap (tl (split delim content)) = false ->
    exists out,
      run content = Ok out /\
      script content = Ok (out, summary) /\
      In shape (tl (split delim out)).
Proof.
  intros Hk Hdim.
  assert (Hfix : fix_shape shape = shape).
  { apply kind_of_rectangle in Hk as (Ht & Hc & Hr).
    unfold fix_shape; rewrite Ht, Hc, Hr.
    destruct Hdim as [-> | ->]; [reflexivity|].
    now destruct (search_digits (txt "width: ") shape). }
  assert (Hcap : over_cap shape = false).
  { unfold over_cap; rewrite Hk.
    destruct Hdim as [-> | ->]; [reflexivity|].
    now destruct (search_digits (txt "width: ") shape). }
  split; [exact Hfix|]; split.
  - now rewrite body_spec, Hcap, Hfix.
  - intros content Hin Hok.
    destruct (run_spec content) as (out & Ht & Hrun); rewrite Hok in Hrun.
    exists out; split; [exact Hrun|]; split.
    + unfold script; now rewrite Hrun.
    + destruct (split_header content) as [others H].
      assert (Hout : out = join delim (header content :: map fix_shape others))
        by (rewrite (transform_eq _ _ _ H) in Ht; congruence).
      rewrite Hout, (split_fixed _ _ _ H).
      rewrite H in Hin; simpl in Hin |- *.
      rewrite <- Hfix; now apply in_map.
Qed.

Lemma C6_rectangle_without_dimensions_witness :
  let shape := txt " type: 'rectangle', height: 200, zIndex: 0 }," in
  let content := txt "shapes = [" ++ delim ++ shape ++ txt "]" in
  kind_of shape = Rectangle /\
  search_digits (txt "width: ") shape = None /\
  fix_shape shape = shape /\
  body shape = Ok shape /\
  In (shape ++ txt "]") (tl (split delim content)) /\
  existsb over_cap (tl (split delim content)) = false /\
  exists out,
    run content = Ok out /\
    script content = Ok (out, summary) /\
    In (shape ++ txt "]") (tl (split delim out)).
Proof.
  cbv zeta; split; [reflexivity|]; split; [reflexivity|].
  pose proof (C6_rectangle_without_dimensions
    (txt " type: 'rectangle', height: 200, zIndex: 0 },")
    eq_refl (or_introl eq_refl)) as (Hfix & Hbody & _).
  split; [exact Hfix|]; split; [exact Hbody|].
  assert (Hin : In (txt " type: 'rectangle', height: 200, zIndex: 0 }," ++ txt "]")
                  (tl (split delim
                         (txt "shapes = [" ++ delim ++
                          txt " type: 'rectangle', height: 200, zIndex: 0 }," ++
                          txt "]"))))
    by (left; reflexivity).
  split; [exact Hin|]; split; [reflexivity|].
  exact (proj2 (proj2 (C6_rectangle_without_dimensions
    (txt " type: 'rectangle', height: 200, zIndex: 0 }," ++ txt "]")
    eq_refl (or_introl eq_refl))) _ Hin eq_refl).
Defined.

(** ** C7: running the script again *)

(** C7: a document without the placeholder is returned unchanged, and
    for every document the script applied to its own output returns that
    output. *)
Theorem C7_idempotent :
  (forall content,
      contains placeholder content = false -> transform content = Some content) /\
  (forall content,
      exists out, transform content = Some out /\ transform out = Some out).
Proof.
  split; intros content.
  - intros Hfree.
    destruct (split_header content) as [others H].
    rewrite (transform_eq _ _ _ H).
    assert (Hparts : Forall (fun f => contains placeholder f = false)
                       (header content :: others)).
    { rewrite <- H.
      apply (free_join_parts placeholder placeholder_nonempty delim).
      now rewrite (join_split delim delim_nonempty). }
    inversion Hparts as [|? ? _ Hothers]; subst.
    replace (map fix_shape others) with others.
    + now rewrite <- H, (join_split delim delim_nonempty).
    + clear H Hparts; induction Hothers as [|f rest Hf _ IH];
        [reflexivity | simpl; now rewrite (fix_shape_free f Hf), <- IH].
  - destruct (split_header content) as [others H].
    exists (join delim (header content :: map fix_shape others)).
    split; [exact (transform_eq _ _ _ H)|].
    rewrite (transform_eq _ _ _ (split_fixed _ _ _ H)).
    rewrite map_map.
    do 3 f_equal; apply map_ext; intros f; apply fix_shape_idem.
Qed.

Lemma C7_idempotent_witness :
  let clean := txt "a = [
    { type: 'text', zIndex: 10 }]" in
  let fresh := txt "a = [
    { type: 'text', zIndex: 0 },
    { type: 'rectangle', width: 8000, height: 10, zIndex: 0 }]" in
  (contains placeholder clean = false /\ transform clean = Some clean) /\
  (exists out, transform fresh = Some out /\ transform out = Some out).
Proof.
  cbv zeta; split.
  - split; [reflexivity|].
    apply (proj1 C7_idempotent); reflexivity.
  - apply (proj2 C7_idempotent).
Defined.

(** ** C8: the order of the rules *)

(** C8: the text rule comes first, the circle rule second, the rectangle
    rule third.  A fragment with the text marker is a text fragment
    whatever other markers it holds: it is rewritten with 10, and when it
    holds the placeholder the result holds [zIndex: 10] and is not what the
    circle rule would give.  A fragment without the text marker and with
    the circle marker is a circle fragment whatever else it holds, and the
    rectangle rule is left to fragments with neither. *)
Theorem C8_precedence (shape : str) :
  (has_marker "text" shape = true ->
   kind_of shape = Text /\
   fix_shape shape = re_sub placeholder (zindex "10") shape /\
   (contains placeholder shape = true ->
    contains (zindex "10") (fix_shape shape) = true /\
    fix_shape shape <> re_sub placeholder (zindex "5") shape)) /\
  (has_marker "text" shape = false -> has_marker "circle" shape = true ->
   kind_of shape = Circle /\
   fix_shape shape = re_sub placeholder (zindex "5") shape) /\
  (has_marker "text" shape = false -> has_marker "circle" shape = false ->
   has_marker "rectangle" shape = true ->
   kind_of shape = Rectangle /\
   fix_shape shape =
   match search_digits (txt "width: ") shape,
         search_digits (txt "height: ") shape with
   | Some w, Some h =>
       re_sub placeholder (rectangle_zindex (int w) (int h)) shape
   | _, _ => shape
   end).
Proof.
  assert (Hne := placeholder_nonempty).
  split; [|split].
  - intros Ht; unfold kind_of, fix_shape; rewrite Ht.
    split; [reflexivity|]; split; [reflexivity|].
    intros Hz; split.
    + apply re_sub_contains; [exact Hne | discriminate | exact Hz].
    + apply (partition_contains placeholder) in Hz as (b & a & E).
      rewrite !(re_sub_eq placeholder Hne _ shape), E.
      intros Heq; apply app_inv_head in Heq.
      vm_compute in Heq; discriminate.
  - intros Ht Hc; unfold kind_of, fix_shape; now rewrite Ht, Hc.
  - intros Ht Hc Hr; unfold kind_of, fix_shape; now rewrite Ht, Hc, Hr.
Qed.

Lemma C8_precedence_witness :
  let shape := txt " type: 'text', was: { type: 'circle' }, zIndex: 0 }," in
  has_marker "text" shape = true /\ has_marker "circle" shape = true /\
  kind_of shape = Text /\
  fix_shape shape = txt " type: 'text', was: { type: 'circle' }, zIndex: 10 }," /\
  fix_shape shape <> re_sub placeholder (zindex "5") shape.
Proof.
  cbv zeta; split; [reflexivity|]; split; [reflexivity|].
  pose proof (proj1 (C8_precedence
    (txt " type: 'text', was: { type: 'circle' }, zIndex: 0 },")) eq_refl)
    as (Hk & Hfix & Hz).
  split; [exact Hk|]; split; [reflexivity|].
  exact (proj2 (Hz eq_refl)).
Defined.

(** ** C9: reassembly *)

(** C9: the output is the header followed by every fixed shape fragment,
    each with the delimiter put back in front of it; splitting the output
    on the delimiter gives exactly the header and the fixed fragments, so
    as many fragments as the input had. *)
Theorem C9_reassembly (content : str) :
  exists others out,
    split delim content = header content :: others /\
    transform content = Some out /\
    out = header content ++ flat_map (fun f => delim ++ fix_shape f) others /\
    split delim out = header content :: map fix_shape others /\
    length (split delim out) = length (split delim content).
Proof.
  destruct (split_header content) as [others H].
  exists others, (join delim (header content :: map fix_shape others)).
  split; [exact H|]; split; [exact (transform_eq _ _ _ H)|].
  split; [|split].
  - rewrite join_flat, flat_map_concat_map, map_map.
    now rewrite <- flat_map_concat_map.
  - exact (split_fixed _ _ _ H).
  - rewrite (split_fixed _ _ _ H), H; simpl.
    now rewrite length_map.
Qed.

(** ** C10: what follows the placeholder *)

(** C10: nothing is asked of the character after the placeholder: in a
    text fragment an occurrence of [zIndex: 0] is rewritten whatever
    follows it, and [zIndex: 01] becomes [zIndex: 101]. *)
Theorem C10_no_boundary (before after : str) :
  (has_marker "text" (before ++ placeholder ++ after) = true ->
   fix_shape (before ++ placeholder ++ after) =
   re_sub placeholder (zindex "10") before ++ zindex "10" ++
   re_sub placeholder (zindex "10") after) /\
  (has_marker "text" (before ++ txt "zIndex: 01" ++ after) = true ->
   fix_shape (before ++ txt "zIndex: 01" ++ after) =
   re_sub placeholder (zindex "10") before ++ txt "zIndex: 101" ++
   re_sub placeholder (zindex "10") after).
Proof.
  assert (Hne := placeholder_nonempty).
  assert (Hub := placeholder_unbordered).
  split; intros Ht; unfold fix_shape; rewrite Ht.
  - now apply re_sub_app.
  - change (txt "zIndex: 01" ++ after)
      with (placeholder ++ "1"%char :: after).
    rewrite (re_sub_app placeholder Hne _ _ _ Hub).
    rewrite (re_sub_cons placeholder Hne); [|reflexivity].
    reflexivity.
Qed.

Lemma C10_no_boundary_witness :
  let before := txt " type: 'text', " in
  let after := txt " }," in
  has_marker "text" (before ++ txt "zIndex: 01" ++ after) = true /\
  fix_shape (txt " type: 'text', zIndex: 01 },") =
  txt " type: 'text', zIndex: 101 },".
Proof.
  cbv zeta; split; [reflexivity|].
  exact (proj2 (C10_no_boundary (txt " type: 'text', ") (txt " },")) eq_refl).
Defined.

(** * Further properties of the script *)

(** ** Occurrences across a join *)

Section Join.

Variable q : str.
Hypothesis q_nonempty : q <> [].

(** With a separator that keeps apart from [q], [q] occurs in a join
    exactly when it occurs in one of the parts. *)
Lemma contains_join (sep : str) (parts : list str) :
  apart q sep = true ->
  contains q (join sep parts) = existsb (contains q) parts.
Proof using q_nonempty.
  intros Hsep.
  destruct (existsb (contains q) parts) eqn:E.
  - clear Hsep; induction parts as [|f [|g rest] IH]; [discriminate | | ].
    + simpl in E; now rewrite orb_false_r in E.
    + change (join sep (f :: g :: rest)) with (f ++ sep ++ join sep (g :: rest)).
      change (existsb (contains q) (f :: g :: rest))
        with (contains q f || existsb (contains q) (g :: rest)) in E.
      apply orb_true_iff in E as [E | E].
      * now apply contains_app_l.
      * now apply contains_app_r, contains_app_r, IH.
  - apply free_join; [assumption | assumption |].
    apply Forall_forall; intros f Hf.
    destruct (contains q f) eqn:Ef; [|reflexivity].
    assert (existsb (contains q) parts = true)
      by (apply existsb_exists; eauto).
    congruence.
Qed.

(** Substituting [r] for [p] neither brings in nor takes out an
    occurrence of [q], when [q] keeps apart from both. *)
Lemma re_sub_contains_iff (p r s : str) :
  p <> [] -> apart q p = true -> apart q r = true ->
  contains q (re_sub p r s) = contains q s.
Proof using q_nonempty.
  intros Hp Hqp Hqr.
  rewrite (re_sub_join p Hp), (contains_join r _ Hqr).
  rewrite <- (join_split p Hp s) at 2.
  now rewrite (contains_join p _ Hqp).
Qed.

End Join.

Lemma markers_apart (m v : str) :
  In m markers -> In v (placeholder :: replacements) ->
  m <> [] /\ apart m v = true.
Proof.
  intros Hm Hv; split.
  - unfold markers in Hm; simpl in Hm.
    repeat destruct Hm as [<- | Hm]; try discriminate; contradiction.
  - assert (H : forallb (fun m => forallb (apart m) (placeholder :: replacements))
                  markers = true) by (vm_compute; reflexivity).
    rewrite forallb_forall in H; specialize (H m Hm).
    rewrite forallb_forall in H; exact (H v Hv).
Qed.

Lemma fix_shape_marker (m shape : str) :
  In m markers -> contains m (fix_shape shape) = contains m shape.
Proof.
  intros Hm; rewrite fix_shape_assigned.
  destruct (assigned shape) as [v|] eqn:E; [|reflexivity].
  apply re_sub_contains_iff.
  - apply (markers_apart m placeholder Hm); now left.
  - apply placeholder_nonempty.
  - apply (markers_apart m placeholder Hm); now left.
  - apply (markers_apart m v Hm); right; now apply (assigned_in shape).
Qed.

Lemma fix_shape_has_marker (k : string) (shape : str) :
  In (marker_sq k) markers -> In (marker_dq k) markers ->
  has_marker k (fix_shape shape) = has_marker k shape.
Proof.
  intros H1 H2; unfold has_marker.
  now rewrite (fix_shape_marker _ shape H1), (fix_shape_marker _ shape H2).
Qed.

Lemma fix_shape_kind (shape : str) : kind_of (fix_shape shape) = kind_of shape.
Proof.
  unfold kind_of.
  now rewrite !fix_shape_has_marker by (simpl; tauto).
Qed.

(** ** X1: the kind of a fragment survives the rewrite *)

(** X1: the loop body neither creates nor destroys a type marker, so a
    fragment is of the same kind after the rewrite as before. *)
Theorem X1_kind_stable (shape : str) :
  has_marker "text" (fix_shape shape) = has_marker "text" shape /\
  has_marker "circle" (fix_shape shape) = has_marker "circle" shape /\
  has_marker "rectangle" (fix_shape shape) = has_marker "rectangle" shape /\
  kind_of (fix_shape shape) = kind_of shape.
Proof.
  repeat split; try (apply fix_shape_has_marker; simpl; tauto).
  apply fix_shape_kind.
Qed.

(** ** The dimension search across appended text *)

Section Search.

Variable key : str.

Lemma search_digits_eq (s : str) :
  search_digits key s =
  match
    match strip_prefix key s with
    | Some rest =>
        match digit_run rest with
        | [] => None
        | d :: ds => Some (d :: ds)
        end
    | None => None
    end
  with
  | Some ds => Some ds
  | None =>
      match s with
      | [] => None
      | _ :: s' => search_digits key s'
      end
  end.
Proof. destruct s; reflexivity. Qed.

Lemma digit_run_app (rest : str) (c : ascii) (u : str) :
  is_digit c = false -> digit_run (rest ++ c :: u) = digit_run rest.
Proof.
  intros Hc; induction rest as [|d rest IH]; simpl; [now rewrite Hc|].
  now rewrite IH.
Qed.

Lemma strip_prefix_app (k f rest u : str) :
  strip_prefix k f = Some rest -> strip_prefix k (f ++ u) = Some (rest ++ u).
Proof.
  revert f; induction k as [|a k IH]; intros [|b f]; simpl;
    try discriminate; try (intros H; inversion H; reflexivity).
  destruct (Ascii.eqb a b); [apply IH | discriminate].
Qed.

(** A key that does not fit keeps not fitting when text is appended,
    unless it was cut short by the end of the text. *)
Lemma strip_prefix_long (k f u : str) :
  strip_prefix k f = None -> length k <= length f ->
  strip_prefix k (f ++ u) = None.
Proof.
  revert f; induction k as [|a k IH]; intros [|b f]; simpl; try congruence;
    try lia.
  destruct (Ascii.eqb a b); [|reflexivity].
  intros H Hl; apply IH; [exact H | lia].
Qed.

(** A key cut short by the end of the text cannot go on with a character
    it does not hold. *)
Lemma strip_prefix_foreign (k f : str) (c : ascii) (u : str) :
  ~ In c k -> strip_prefix k f = None ->
  strip_prefix k (f ++ c :: u) = None.
Proof.
  revert f; induction k as [|a k IH]; intros [|b f] Hc; simpl; try congruence.
  - intros _; destruct (Ascii.eqb a c) eqn:E; [|reflexivity].
    apply Ascii.eqb_eq in E; subst; simpl in Hc; tauto.
  - destruct (Ascii.eqb a b); [|reflexivity].
    apply IH; simpl in Hc; tauto.
Qed.

Lemma strip_prefix_compat (k r t rest : str) :
  strip_prefix k (r ++ t) = Some rest -> compat k r = true.
Proof.
  revert r; induction k as [|a k IH]; intros [|b r]; simpl; try easy.
  destruct (Ascii.eqb a b); [apply IH | discriminate].
Qed.

Lemma search_digits_longer (s ds : str) :
  search_digits key s = Some ds -> length key < length s.
Proof.
  induction s as [|c s IH]; rewrite search_digits_eq.
  - destruct (strip_prefix key []) as [rest|] eqn:E; [|discriminate].
    apply strip_prefix_some in E.
    destruct key, rest; simpl in *; congruence.
  - destruct (strip_prefix key (c :: s)) as [rest|] eqn:E.
    + destruct (digit_run rest) as [|d r] eqn:Er.
      * intros H; apply IH in H; simpl; lia.
      * intros _; apply strip_prefix_some in E; rewrite E, length_app.
        destruct rest; [discriminate | simpl; lia].
    + intros H; apply IH in H; simpl; lia.
Qed.

(** The leftmost match wins: text appended after a non-digit does not
    change what the search finds. *)
Lemma search_digits_app_some (f ds : str) (c : ascii) (u : str) :
  is_digit c = false ->
  search_digits key f = Some ds ->
  search_digits key (f ++ c :: u) = Some ds.
Proof.
  intros Hc; induction f as [|b f IH]; intros H.
  - apply search_digits_longer in H; simpl in H; lia.
  - rewrite search_digits_eq in H.
    rewrite search_digits_eq.
    change ((b :: f) ++ c :: u) with (b :: (f ++ c :: u)).
    change (b :: (f ++ c :: u)) with ((b :: f) ++ c :: u) at 1.
    destruct (strip_prefix key (b :: f)) as [rest|] eqn:E.
    + rewrite (strip_prefix_app _ _ _ (c :: u) E), (digit_run_app _ _ _ Hc).
      destruct (digit_run rest); [now apply IH | exact H].
    + assert (Hl := search_digits_longer _ _ H).
      rewrite (strip_prefix_long _ _ (c :: u) E); [now apply IH | simpl; lia].
Qed.

(** Where the search finds nothing, it goes on in the appended text. *)
Lemma search_digits_app_none (f : str) (c : ascii) (u : str) :
  is_digit c = false -> ~ In c key ->
  search_digits key f = None ->
  search_digits key (f ++ c :: u) = search_digits key (c :: u).
Proof.
  intros Hc Hkey; induction f as [|b f IH]; intros H; [reflexivity|].
  rewrite search_digits_eq in H.
  rewrite (search_digits_eq ((b :: f) ++ c :: u)).
  change ((b :: f) ++ c :: u) with (b :: (f ++ c :: u)).
  change (b :: (f ++ c :: u)) with ((b :: f) ++ c :: u) at 1.
  destruct (strip_prefix key (b :: f)) as [rest|] eqn:E.
  - rewrite (strip_prefix_app _ _ _ (c :: u) E), (digit_run_app _ _ _ Hc).
    destruct (digit_run rest); [now apply IH | discriminate].
  - rewrite (strip_prefix_foreign _ _ _ u Hkey E); now apply IH.
Qed.

(** No match starts inside a separator the key cannot start in. *)
Lemma search_digits_skip (sep rest : str) :
  no_inside key sep = true ->
  search_digits key (sep ++ rest) = search_digits key rest.
Proof.
  induction sep as [|x sep IH]; intros H; [reflexivity|].
  simpl in H; apply andb_true_iff in H as [Hx H].
  rewrite search_digits_eq.
  change ((x :: sep) ++ rest) with (x :: (sep ++ rest)).
  change (x :: (sep ++ rest)) with ((x :: sep) ++ rest) at 1.
  destruct (strip_prefix key ((x :: sep) ++ rest)) as [r|] eqn:E;
    [|now apply IH].
  apply strip_prefix_compat in E.
  apply negb_true_iff in Hx; congruence.
Qed.

(** The search does not depend on the separator of a join, for
    separators it cannot match in and that start with the same non-digit
    foreign to the key. *)
Lemma search_digits_join (c : ascii) (sep1 sep2 : str) (parts : list str) :
  is_digit c = false -> ~ In c key ->
  no_inside key (c :: sep1) = true -> no_inside key (c :: sep2) = true ->
  search_digits key (join (c :: sep1) parts) =
  search_digits key (join (c :: sep2) parts).
Proof.
  intros Hc Hkey H1 H2.
  induction parts as [|f [|g rest] IH]; [reflexivity | reflexivity |].
  change (join (c :: sep1) (f :: g :: rest))
    with (f ++ c :: (sep1 ++ join (c :: sep1) (g :: rest))).
  change (join (c :: sep2) (f :: g :: rest))
    with (f ++ c :: (sep2 ++ join (c :: sep2) (g :: rest))).
  destruct (search_digits key f) as [ds|] eqn:E.
  - now rewrite !(search_digits_app_some f ds c _ Hc E).
  - rewrite !(search_digits_app_none f c _ Hc Hkey E).
    change (c :: sep1 ++ join (c :: sep1) (g :: rest))
      with ((c :: sep1) ++ join (c :: sep1) (g :: rest)).
    change (c :: sep2 ++ join (c :: sep2) (g :: rest))
      with ((c :: sep2) ++ join (c :: sep2) (g :: rest)).
    now rewrite (search_digits_skip _ _ H1), (search_digits_skip _ _ H2).
Qed.

End Search.

Lemma fix_shape_search (key shape : str) :
  In key dimension_keys ->
  search_digits key (fix_shape shape) = search_digits key shape.
Proof.
  intros Hkey; rewrite fix_shape_assigned.
  destruct (assigned shape) as [v|] eqn:E; [|reflexivity].
  apply assigned_in in E.
  rewrite (re_sub_join placeholder placeholder_nonempty).
  rewrite <- (join_split placeholder placeholder_nonempty shape) at 2.
  assert (Hv : exists v', v = "z"%char :: v' /\
                          no_inside key ("z"%char :: v') = true).
  { unfold dimension_keys in Hkey; simpl in Hkey.
    unfold replacements in E; simpl in E.
    destruct Hkey as [<- | [<- | []]];
      repeat destruct E as [<- | E]; try contradiction;
      eexists; split; reflexivity. }
  destruct Hv as (v' & -> & Hv).
  apply (search_digits_join key "z"%char v' (tl placeholder));
    [reflexivity | | exact Hv | ].
  - unfold dimension_keys in Hkey; simpl in Hkey.
    destruct Hkey as [<- | [<- | []]]; simpl; intros H;
      repeat destruct H as [H | H]; try discriminate; contradiction.
  - unfold dimension_keys in Hkey; simpl in Hkey.
    destruct Hkey as [<- | [<- | []]]; reflexivity.
Qed.

Lemma fix_shape_rule (shape : str) : assigned (fix_shape shape) = assigned shape.
Proof.
  unfold assigned; rewrite fix_shape_kind.
  now rewrite !fix_shape_search by (simpl; tauto).
Qed.

(** ** X2: the dimensions and the rule survive the rewrite *)

(** X2: the width and the height the searches find in a fragment are the
    same after the rewrite as before, and so is what the rule table
    assigns to the fragment. *)
Theorem X2_rule_stable (shape : str) :
  search_digits (txt "width: ") (fix_shape shape) =
    search_digits (txt "width: ") shape /\
  search_digits (txt "height: ") (fix_shape shape) =
    search_digits (txt "height: ") shape /\
  assigned (fix_shape shape) = assigned shape.
Proof.
  repeat split; try (apply fix_shape_search; simpl; tauto).
  apply fix_shape_rule.
Qed.

(** ** X3: a document put together from fragments *)

(** X3: for a header and fragments that hold no delimiter, the script
    applied to their join gives the join of the header and the fixed
    fragments. *)
Theorem X3_transform_of_join (first : str) (shapes : list str) :
  contains delim first = false ->
  Forall (fun f => contains delim f = false) shapes ->
  split delim (join delim (first :: shapes)) = first :: shapes /\
  transform (join delim (first :: shapes)) =
    Some (join delim (first :: map fix_shape shapes)).
Proof.
  intros Hfirst Hshapes.
  assert (H : split delim (join delim (first :: shapes)) = first :: shapes).
  { apply split_join;
      [apply delim_nonempty | apply delim_unbordered | discriminate |].
    now constructor. }
  split; [exact H | exact (transform_eq _ _ _ H)].
Qed.

Lemma X3_transform_of_join_witness :
  let first := txt "const shapes = [" in
  let shapes := [txt " type: 'text', zIndex: 0 },";
                 txt " type: 'rectangle', width: 90, height: 9000, zIndex: 0 }]"] in
  contains delim first = false /\
  Forall (fun f => contains delim f = false) shapes /\
  transform (join delim (first :: shapes)) =
    Some (join delim (first :: map fix_shape shapes)).
Proof.
  cbv zeta.
  assert (Hs : Forall (fun f => contains delim f = false)
                 [txt " type: 'text', zIndex: 0 },";
                  txt " type: 'rectangle', width: 90, height: 9000, zIndex: 0 }]"])
    by (repeat constructor).
  split; [reflexivity|]; split; [exact Hs|].
  exact (proj2 (X3_transform_of_join (txt "const shapes = [") _ eq_refl Hs)).
Defined.

(** ** X4: a document without the delimiter *)

(** X4: a document in which the delimiter does not occur is all header:
    it is returned as it is, whatever markers and placeholders it
    holds. *)
Theorem X4_no_delimiter (content : str) :
  contains delim content = false ->
  split delim content = [content] /\ transform content = Some content.
Proof.
  intros H.
  assert (Hs : split delim content = [content]).
  { rewrite split_eq by apply delim_nonempty.
    apply partition_none in H; now rewrite H. }
  split; [exact Hs | exact (transform_eq _ _ _ Hs)].
Qed.

Lemma X4_no_delimiter_witness :
  let content := txt "[
  { type: 'text', zIndex: 0 },
  { type: 'circle', zIndex: 0 }]" in
  contains delim content = false /\
  contains placeholder content = true /\
  transform content = Some content.
Proof.
  cbv zeta; split; [reflexivity|]; split; [reflexivity|].
  apply X4_no_delimiter; reflexivity.
Defined.

(** ** X5: only digits change *)

Lemma non_digits_join (sep : str) (parts : list str) :
  non_digits (join sep parts) = join (non_digits sep) (map non_digits parts).
Proof.
  unfold non_digits.
  induction parts as [|f [|g rest] IH]; [reflexivity | reflexivity |].
  change (join sep (f :: g :: rest)) with (f ++ sep ++ join sep (g :: rest)).
  rewrite !filter_app, IH; reflexivity.
Qed.

Lemma fix_shape_non_digits (shape : str) :
  non_digits (fix_shape shape) = non_digits shape.
Proof.
  rewrite fix_shape_assigned.
  destruct (assigned shape) as [v|] eqn:E; [|reflexivity].
  apply assigned_in in E.
  rewrite (re_sub_join placeholder placeholder_nonempty), non_digits_join.
  rewrite <- (join_split placeholder placeholder_nonempty shape) at 2.
  rewrite non_digits_join; f_equal.
  unfold replacements in E; simpl in E.
  repeat destruct E as [<- | E]; try reflexivity; contradiction.
Qed.

(** X5: the script changes digits only: the output without its digits is
    the input without its digits. *)
Theorem X5_only_digits_change (content : str) :
  exists out,
    transform content = Some out /\ non_digits out = non_digits content.
Proof.
  destruct (split_header content) as [others H].
  exists (join delim (header content :: map fix_shape others)).
  split; [exact (transform_eq _ _ _ H)|].
  rewrite <- (join_split delim delim_nonempty content) at 2.
  rewrite H, !non_digits_join; f_equal; simpl; f_equal.
  rewrite map_map; apply map_ext; intros f; apply fix_shape_non_digits.
Qed.

(** ** Counting occurrences *)

Section Counting.

Variable p : str.
Hypothesis p_nonempty : p <> [].

Lemma occurrences_free (s : str) :
  contains p s = false -> occurrences p s = 0.
Proof.
  induction s as [|c s IH]; simpl; intros H;
    apply orb_false_iff in H as [-> H]; [reflexivity | now rewrite IH].
Qed.

Lemma occurrences_glue (f u : str) :
  contains p f = false ->
  (forall k, 0 < k < length p -> starts_with (skipn k p) u = false) ->
  occurrences p (f ++ u) = occurrences p u.
Proof.
  intros Hf Hrun; induction f as [|c f IH]; [reflexivity|].
  apply (contains_cons p) in Hf as [Hhere Hf].
  change (occurrences p ((c :: f) ++ u))
    with ((if starts_with p ((c :: f) ++ u) then 1 else 0) +
          occurrences p (f ++ u)).
  rewrite (IH Hf).
  destruct (starts_with p ((c :: f) ++ u)) eqn:E; [|reflexivity].
  apply starts_with_cut in E as [E | [Hlen E]]; [congruence|].
  rewrite Hrun in E; [discriminate | simpl in *; lia].
Qed.

Lemma occurrences_inside (r rest : str) :
  no_inside p r = true -> occurrences p (r ++ rest) = occurrences p rest.
Proof.
  induction r as [|c r IH]; intros H; [reflexivity|].
  simpl in H; apply andb_true_iff in H as [Hc H].
  change (occurrences p ((c :: r) ++ rest))
    with ((if starts_with p ((c :: r) ++ rest) then 1 else 0) +
          occurrences p (r ++ rest)).
  rewrite (IH H).
  destruct (starts_with p ((c :: r) ++ rest)) eqn:E; [|reflexivity].
  apply starts_with_compat in E.
  apply negb_true_iff in Hc; congruence.
Qed.

Lemma occurrences_self (a : str) :
  no_inside p (tl p) = true ->
  occurrences p (p ++ a) = S (occurrences p a).
Proof using p_nonempty.
  intros Hin.
  assert (Hhere : starts_with p (p ++ a) = true) by apply starts_with_refl.
  assert (Hrest := occurrences_inside (tl p) a Hin).
  assert (Hp : p ++ a = hd "z"%char p :: (tl p ++ a))
    by (destruct p; [congruence | reflexivity]).
  rewrite Hp in Hhere |- *.
  simpl occurrences; now rewrite Hhere, Hrest.
Qed.

(** For a pattern that does not overlap itself, the places at which it
    starts are the places at which [split] cuts. *)
Lemma occurrences_split (s : str) :
  unbordered p = true -> no_inside p (tl p) = true ->
  length (split p s) = S (occurrences p s).
Proof using p_nonempty.
  intros Hub Hin.
  induction s as [s Hs | s b a E IH] using (cut_ind p p_nonempty);
    rewrite split_eq by assumption.
  - rewrite Hs; apply partition_none in Hs.
    now rewrite (occurrences_free s Hs).
  - rewrite E; simpl length; rewrite IH; f_equal.
    apply (partition_some p p_nonempty) in E as [-> Hb].
    rewrite occurrences_glue;
      [ | exact Hb | intros k Hk; now apply no_straddle_spec].
    symmetry; now apply occurrences_self.
Qed.

Lemma length_join (sep first : str) (rest : list str) :
  length (join sep (first :: rest)) =
  length first + length rest * length sep + length (concat rest).
Proof.
  revert first; induction rest as [|g rest IH]; intros first;
    [simpl; lia|].
  rewrite join_cons by discriminate.
  rewrite !length_app, IH; simpl; rewrite length_app; lia.
Qed.

(** Each substitution trades the length of the pattern for the length
    of the replacement. *)
Lemma re_sub_length (r s : str) :
  unbordered p = true -> no_inside p (tl p) = true ->
  length (re_sub p r s) + occurrences p s * length p =
  length s + occurrences p s * length r.
Proof using p_nonempty.
  intros Hub Hin.
  assert (Hn := occurrences_split s Hub Hin).
  assert (Hs : length s = length (join p (split p s)))
    by now rewrite (join_split p p_nonempty).
  rewrite (re_sub_join p p_nonempty), Hs.
  destruct (split p s) as [|first rest]; [discriminate|].
  simpl in Hn; injection Hn as Hn; rewrite <- Hn.
  rewrite !length_join; lia.
Qed.

End Counting.

(** ** X6: the length of a fixed fragment *)

(** X6: a text fragment grows by one character for every occurrence of
    the placeholder in it; every other fragment keeps its length. *)
Theorem X6_length (shape : str) :
  length (fix_shape shape) =
  length shape +
  match kind_of shape with
  | Text => occurrences placeholder shape
  | _ => 0
  end.
Proof.
  assert (Hlen := fun r =>
    re_sub_length placeholder placeholder_nonempty r shape
      placeholder_unbordered eq_refl).
  change (length placeholder) with 9 in Hlen.
  rewrite fix_shape_assigned; unfold assigned.
  destruct (kind_of shape).
  - specialize (Hlen (zindex "10")).
    change (length (zindex "10")) with 10 in Hlen; lia.
  - specialize (Hlen (zindex "5")).
    change (length (zindex "5")) with 9 in Hlen; lia.
  - destruct (search_digits (txt "width: ") shape) as [w|]; [|lia].
    destruct (search_digits (txt "height: ") shape) as [h|]; [|lia].
    specialize (Hlen (rectangle_zindex (int w) (int h))).
    assert (Hr : length (rectangle_zindex (int w) (int h)) = 9).
    { unfold rectangle_zindex.
      repeat match goal with |- context [if ?b then _ else _] => destruct b end;
        reflexivity. }
    rewrite Hr in Hlen; lia.
  - lia.
Qed.

(** ** X7: the size bands look at the larger dimension only *)

(** X7: the literal assigned to a rectangle is the same when width and
    height are swapped, and depends on the larger of the two only. *)
Theorem X7_rectangle_symmetric (width height : N) :
  rectangle_zindex width height = rectangle_zindex height width /\
  rectangle_zindex width height = rectangle_zindex (N.max width height) 0.
Proof.
  unfold rectangle_zindex.
  destruct (N.max_spec width height) as [[Hlt ->] | [Hle ->]];
    repeat match goal with
           | |- context [(?a <=? ?b)%N] => destruct (N.leb_spec a b)
           end; simpl; split; try reflexivity; lia.
Qed.

(** ** X8: the leftmost dimension wins *)

(** X8: once a key is followed by digits and then by a character that is
    no digit, whatever comes after does not change what the search finds:
    a later [width: ] or [height: ] in the fragment is never looked at. *)
Theorem X8_first_match_wins (key f ds : str) (c : ascii) (u : str) :
  search_digits key f = Some ds ->
  is_digit c = false ->
  search_digits key (f ++ c :: u) = Some ds.
Proof. intros H Hc; now apply search_digits_app_some. Qed.

Lemma X8_first_match_wins_witness :
  search_digits (txt "width: ") (txt " width: 120") = Some (txt "120") /\
  is_digit ","%char = false /\
  search_digits (txt "width: ")
    (txt " width: 120" ++ ","%char :: txt " child: { width: 9000 }") =
  Some (txt "120").
Proof.
  split; [reflexivity|]; split; [reflexivity|].
  apply X8_first_match_wins; reflexivity.
Defined.

(** ** X9: when the script stops *)

(** X9: [split] gives at least one fragment, so [shapes[0]] never
    raises.  The script stops with [ValueError], before anything is
    written or printed, exactly when some shape fragment is a rectangle
    with both dimensions found and one of them written with more than 4300
    digits; on every other text, the empty one included, it hands the
    result of [transform] to [write] and prints its summary. *)
Theorem X9_stops_exactly (content : str) :
  split delim content <> [] /\
  exists out,
    transform content = Some out /\
    run content =
      (if existsb over_cap (tl (split delim content)) then Raise ValueError
       else Ok out) /\
    script content =
      (if existsb over_cap (tl (split delim content)) then Raise ValueError
       else Ok (out, summary)).
Proof.
  split; [apply split_nonempty, delim_nonempty|].
  destruct (run_spec content) as (out & Ht & Hrun).
  exists out; split; [exact Ht|]; split; [exact Hrun|].
  unfold script; rewrite Hrun.
  destruct (existsb over_cap (tl (split delim content))); reflexivity.
Qed.

(** ** X10: what the output looks like *)

(** X10: in the output, a fragment to which the rule table assigns a
    literal holds no placeholder any more. *)
Theorem X10_output_clean (content : str) :
  exists out,
    transform content = Some out /\
    forall f v, In f (tl (split delim out)) -> assigned f = Some v ->
                contains placeholder f = false.
Proof.
  destruct (split_header content) as [others H].
  exists (join delim (header content :: map fix_shape others)).
  split; [exact (transform_eq _ _ _ H)|].
  rewrite (split_fixed _ _ _ H); simpl tl.
  intros f v Hin Hv.
  apply in_map_iff in Hin as (g & <- & _).
  rewrite fix_shape_rule in Hv.
  exact (fix_shape_clean g v Hv).
Qed.

(** ** X11: when a dimension is missing *)

Lemma search_digits_complete (key before rest : str) (d : ascii) :
  is_digit d = true ->
  search_digits key (before ++ key ++ d :: rest) <> None.
Proof.
  intros Hd; induction before as [|c before IH]; rewrite search_digits_eq.
  - simpl app.
    assert (E : strip_prefix key (key ++ d :: rest) = Some (d :: rest)).
    { clear; induction key as [|a k IHk]; simpl; [reflexivity|].
      now rewrite Ascii.eqb_refl. }
    rewrite E; simpl; rewrite Hd; discriminate.
  - change ((c :: before) ++ key ++ d :: rest)
      with (c :: (before ++ key ++ d :: rest)).
    destruct (strip_prefix key (c :: before ++ key ++ d :: rest)) as [r|];
      [|exact IH].
    destruct (digit_run r); [exact IH | discriminate].
Qed.

(** X11: a dimension search finds nothing exactly when no occurrence of
    its key in the fragment is directly followed by a digit; a sign, a
    quote or a missing space after the colon makes the key count as
    absent. *)
Theorem X11_dimension_missing (key s : str) :
  search_digits key s = None <->
  (forall before rest d, s = before ++ key ++ d :: rest -> is_digit d = false).
Proof.
  split.
  - intros H before rest d ->.
    destruct (is_digit d) eqn:Hd; [|reflexivity].
    now apply (search_digits_complete key before rest d) in Hd.
  - intros H.
    destruct (search_digits key s) as [ds|] eqn:E; [|reflexivity].
    apply search_digits_sound in E as (Hne & Hds & before & rest & -> & Hrun).
    destruct rest as [|d rest]; [simpl in Hrun; congruence|].
    specialize (H before rest d eq_refl).
    simpl in Hrun; rewrite H in Hrun; congruence.
Qed.

Lemma X11_dimension_missing_witness :
  search_digits (txt "width: ") (txt " type: 'rectangle', width: -40, height: 7 }")
  = None /\
  is_digit "-"%char = false.
Proof.
  assert (H : search_digits (txt "width: ")
                (txt " type: 'rectangle', width: -40, height: 7 }") = None)
    by reflexivity.
  split; [exact H|].
  exact (proj1 (X11_dimension_missing _ _) H
           (txt " type: 'rectangle', ") (txt "40, height: 7 }") "-"%char eq_refl).
Defined.
